(** * led_group: a userspace LED group leader and its followers

    A shallow embedding of [led_group.c].  The program opens [/dev/uleds],
    registers a virtual LED (the group leader), opens the [brightness]
    attribute of every LED named on the command line, and then copies
    every brightness value read from the leader to all of them.

    The program talks to the operating system only through [open],
    [close], [lseek], [write], [read], [perror] and [fprintf(stderr, ...)].
    The embedding threads a [world] through the code: the table of open
    descriptors and the chronological list of the calls made so far, with
    their results.  What the operating system answers is not decided by
    the program; it is a parameter, the [environment], which may answer
    differently after every history.

    [TEMP_FAILURE_RETRY] of the C library repeats a call as long as it
    fails with [EINTR].  A call wrapped in it is embedded as one call,
    whose answer is the one of the last, uninterrupted attempt; a run in
    which a call is interrupted for ever is not represented. *)

From Stdlib Require Import ZArith Lia Ascii String.
From stdpp Require Import base numbers list strings pretty gmap sets.

Local Open Scope Z_scope.

(* [set_solver] clears hypotheses it has already used up. *)
Set Warnings "-clear-no-such-hyp".

(** ** Constants of the source and of the C library *)

Definition MAX_LEDS_IN_GROUP : nat := 4.
Definition max_brightness : Z := 100.
Definition EXIT_SUCCESS : Z := 0.
Definition EXIT_FAILURE : Z := 1.

(** ** Values exchanged with the operating system *)

Inductive open_flag := O_WRONLY | O_RDWR.
Inductive seek_whence := SEEK_SET.

(** [struct uleds_user_dev] of [<linux/uleds.h>]: the name of the LED and
    its maximal brightness. *)
Record uleds_user_dev := {
  name : string;
  dev_max_brightness : Z
}.

(** What a [write] sends: the [strlen(buf)] characters of a text buffer,
    or the [sizeof(uleds_dev)] bytes of a device description. *)
Inductive payload :=
| Text (s : string)
| UledsUserDev (d : uleds_user_dev).

(** One call of the program, with what it returned. *)
Inductive event :=
| EOpen (path : string) (flags : open_flag) (ret : Z)
| EClose (fd : Z) (ret : Z)
| ELseek (fd : Z) (offset : Z) (whence : seek_whence)
| EWrite (fd : Z) (data : payload) (ret : Z)
| ERead (fd : Z) (ret : Z) (buf : Z)
| EPerror (msg : string)
| EStderr (text : string).

(** The answer to [read(fd, &brightness, sizeof(brightness))]: the value
    returned and what the variable [brightness] holds afterwards.  The
    variable is not initialised by the program, so after a call that
    stored nothing its content is whatever the environment says. *)
Record read_result := {
  rd_ret : Z;
  rd_buf : Z
}.

(** The operating system seen from the program: whether an [open]
    succeeds, what a [write] returns and what a [read] delivers, each as a
    function of everything that happened before. *)
Record environment := {
  env_open : list event → string → open_flag → bool;
  env_write : list event → Z → payload → Z;
  env_read : list event → Z → read_result
}.

Record world := {
  open_fds : gset Z;
  trace : list event
}.

(** A C [int] holds 32 bits, two's complement. *)
Definition to_int (z : Z) : Z := (z + 2 ^ 31) `mod` 2 ^ 32 - 2 ^ 31.

(** [open] returns the lowest descriptor that is not in use. *)
Fixpoint lowest_free_from (n : nat) (fd : Z) (used : gset Z) : Z :=
  match n with
  | O => fd
  | S k => if decide (fd ∈ used) then lowest_free_from k (fd + 1) used else fd
  end.

Definition lowest_free (used : gset Z) : Z :=
  lowest_free_from (size used) 0 used.

(** ** The monad of the program: a state monad over the world *)

Definition M (A : Type) : Type := world → A * world.

Definition ret {A} (a : A) : M A := λ w, (a, w).

Definition bind {A B} (m : M A) (k : A → M B) : M B :=
  λ w, let (a, w') := m w in k a w'.

#[global] Instance M_ret : MRet M := @ret.
#[global] Instance M_bind : MBind M := λ A B k m, bind m k.
#[global] Instance M_fmap : FMap M := λ A B f m, bind m (λ a, ret (f a)).

Definition emit (e : event) : M unit :=
  λ w, (tt, {| open_fds := open_fds w; trace := trace w ++ [e] |}).

(** The line feed the format strings end in. *)
Definition LF : string := String "010"%char "".

(** [snprintf(buf, size, ...)] keeps at most [size - 1] characters. *)
Definition snprintf (size : nat) (s : string) : string :=
  String.substring 0 (size - 1) s.

(** The shim compiled when [HAVE_STRLCPY == 0]: [strncpy] of [len - 1]
    characters, then a terminator. *)
Definition strlcpy (src : string) (len : nat) : string :=
  String.substring 0 (len - 1) src.

(** The events a list of events makes on descriptors, without results:
    the seeks and the writes, in order. *)
Inductive fd_op :=
| OpLseek (fd : Z) (offset : Z) (whence : seek_whence)
| OpWrite (fd : Z) (data : payload).

Definition fd_op_of (e : event) : list fd_op :=
  match e with
  | ELseek fd off wh => [OpLseek fd off wh]
  | EWrite fd d _ => [OpWrite fd d]
  | _ => []
  end.

Definition fd_ops (evs : list event) : list fd_op := evs ≫= fd_op_of.

(** Replaying a list of events against the set of descriptors the program
    holds: a successful [open] must deliver a descriptor it does not hold
    yet, a [close] must be given a descriptor it holds, and takes it
    away.  [None] when a descriptor is closed twice or was never opened. *)
Definition replay_event (held : gset Z) (e : event) : option (gset Z) :=
  match e with
  | EOpen _ _ fd =>
      if decide (0 ≤ fd) then
        if decide (fd ∈ held) then None else Some ({[fd]} ∪ held)
      else Some held
  | EClose fd _ =>
      if decide (fd ∈ held) then Some (held ∖ {[fd]}) else None
  | _ => Some held
  end.

Fixpoint replay (held : gset Z) (evs : list event) : option (gset Z) :=
  match evs with
  | [] => Some held
  | e :: evs' =>
      match replay_event held e with
      | Some held' => replay held' evs'
      | None => None
      end
  end.

(** Every descriptor opened in [evs] is closed exactly once in [evs], and
    nothing else is closed. *)
Definition closed_exactly_once (evs : list event) : Prop :=
  replay ∅ evs = Some ∅.

(** The events added to the trace between two worlds. *)
Definition events_since (w w' : world) : list event :=
  drop (length (trace w)) (trace w').

(** The successful [open]s of a list of events: path and descriptor. *)
Definition open_of (e : event) : list (string * Z) :=
  match e with
  | EOpen path _ fd => if decide (0 ≤ fd) then [(path, fd)] else []
  | _ => []
  end.

Definition opens (evs : list event) : list (string * Z) := evs ≫= open_of.

(** Every failed [write] is followed at once by the message of
    [update_led], and the message appears nowhere else. *)
Fixpoint write_failures_reported (evs : list event) : bool :=
  match evs with
  | [] => true
  | EWrite _ _ r :: rest =>
      if decide (r < 0) then
        match rest with
        | EPerror msg :: rest' =>
            bool_decide (msg = "failed to write to group LED")
            && write_failures_reported rest'
        | _ => false
        end
      else write_failures_reported rest
  | EPerror _ :: _ => false
  | _ :: rest => write_failures_reported rest
  end.

(** ** Running a computation: the events it adds and what holds after *)

Definition wp {A} (m : M A) (w : world)
    (Q : A → list event → world → Prop) : Prop :=
  ∃ evs, trace (m w).2 = trace w ++ evs ∧ Q (m w).1 evs (m w).2.

(** ** The follower set *)

(** [struct led_group]: [count] is a [size_t] that the code keeps at or
    below [MAX_LEDS_IN_GROUP]; [led_fds] is the array of descriptors. *)
Record led_group := {
  count : nat;
  led_fds : list Z
}.

(** The descriptors the loops over [i < count] visit, in that order. *)
Definition members (g : led_group) : list Z :=
  (λ i, led_fds g !!! i) <$> seq 0 (count g).

(** ** Concrete environments and worlds, for the examples *)

Definition is_read (e : event) : bool :=
  match e with
  | ERead _ _ _ => true
  | _ => false
  end.

(** An environment that answers the [n]-th [read] with the [n]-th entry of
    a script, and with an error once the script is used up. *)
Definition scripted (can_open : string → bool) (written : Z → payload → Z)
    (script : list read_result) : environment :=
  {| env_open := λ _ path _, can_open path;
     env_write := λ _ fd data, written fd data;
     env_read := λ hist _,
       default {| rd_ret := -1; rd_buf := 0 |}
         (script !! length (List.filter is_read hist)) |}.

Definition full_read (v : Z) : read_result := {| rd_ret := 4; rd_buf := v |}.
Definition end_of_stream : read_result := {| rd_ret := 0; rd_buf := 7 |}.

(** Everything succeeds; the leader reports 42, then 75, then fails. *)
Definition env_ok : environment :=
  scripted (λ _, true) (λ _ _, 3) [full_read 42; full_read 75].

(** As [env_ok], but no write on descriptor 4 succeeds. *)
Definition env_bad_led : environment :=
  scripted (λ _, true) (λ fd _, if decide (fd = 4) then -1 else 3)
    [full_read 42; full_read 75].

(** The leader registers, but the first read finds the end of the
    stream. *)
Definition env_eof : environment :=
  scripted (λ _, true) (λ _ _, 3) [end_of_stream; end_of_stream].

(** The leader registers and the LEDs can be opened, but the first read
    on the leader fails. *)
Definition env_read_error : environment :=
  scripted (λ _, true) (λ _ _, 3) [].

(** The process starts with its three standard descriptors. *)
Definition w_start : world := {| open_fds := {[0; 1; 2]}; trace := [] |}.

(** A world in which descriptors 3 to 5 are open as well. *)
Definition w_running : world :=
  {| open_fds := {[0; 1; 2; 3; 4; 5]}; trace := [] |}.

Definition two_leds : led_group := {| count := 2; led_fds := [4; 5; 0; 0] |}.
Definition one_led : led_group := {| count := 1; led_fds := [3; 0; 0; 0] |}.
Definition four_leds : led_group := {| count := 4; led_fds := [4; 5; 6; 7] |}.

Definition w_full : world :=
  {| open_fds := {[0; 1; 2; 3; 4; 5; 6; 7]}; trace := [] |}.

(** The registration of the leader is refused: the [write] of the
    device description returns -1. *)
Definition env_no_registration : environment :=
  scripted (λ _, true) (λ _ _, -1) [].

(** The attribute file of [led1] cannot be opened. *)
Definition env_no_led1 : environment :=
  scripted (λ path, negb (String.eqb path "/sys/class/leds/led1/brightness"))
    (λ _ _, 3) [].

Definition argv_five_leds : list string :=
  ["led_group"; "panel"; "led0"; "led1"; "led2"; "led3"; "led4"].

Definition argv_two_leds : list string :=
  ["led_group"; "panel"; "led0"; "led1"].
Definition argv_one_led : list string := ["led_group"; "panel"; "led0"].

(** * The program *)

Section LedGroup.

(** [LED_MAX_NAME_SIZE] comes from [<linux/uleds.h>]. *)
Variable LED_MAX_NAME_SIZE : nat.
Variable env : environment.

(** ** System calls *)

Definition sys_open (path : string) (flags : open_flag) : M Z :=
  λ w,
    if env_open env (trace w) path flags then
      let fd := lowest_free (open_fds w) in
      (fd, {| open_fds := {[fd]} ∪ open_fds w;
              trace := trace w ++ [EOpen path flags fd] |})
    else
      (-1, {| open_fds := open_fds w;
              trace := trace w ++ [EOpen path flags (-1)] |}).

(** [close] of a descriptor that is not open fails and changes nothing. *)
Definition sys_close (fd : Z) : M Z :=
  λ w,
    let r := if decide (fd ∈ open_fds w) then 0 else -1 in
    (r, {| open_fds := open_fds w ∖ {[fd]};
           trace := trace w ++ [EClose fd r] |}).

Definition sys_lseek (fd : Z) (offset : Z) (whence : seek_whence) : M unit :=
  emit (ELseek fd offset whence).

Definition sys_write (fd : Z) (data : payload) : M Z :=
  λ w,
    let r := env_write env (trace w) fd data in
    (r, {| open_fds := open_fds w; trace := trace w ++ [EWrite fd data r] |}).

(** [read(fd, &brightness, sizeof(brightness))]: the value returned and
    the content of [brightness] after the call. *)
Definition sys_read (fd : Z) : M (Z * Z) :=
  λ w,
    let r := env_read env (trace w) fd in
    ((rd_ret r, to_int (rd_buf r)),
     {| open_fds := open_fds w;
        trace := trace w ++ [ERead fd (rd_ret r) (to_int (rd_buf r))] |}).

Definition perror (msg : string) : M unit := emit (EPerror msg).
Definition fprintf_stderr (text : string) : M unit := emit (EStderr text).

(** ** led_group.c *)

Definition brightness_text (brightness : Z) : string :=
  snprintf 20 (pretty brightness +:+ LF).

Definition update_led (fd : Z) (brightness : Z) : M unit :=
  let buf := brightness_text brightness in
  sys_lseek fd 0 SEEK_SET;;
  r ← sys_write fd (Text buf);
  if decide (r < 0) then perror "failed to write to group LED" else mret tt.

(** The loop [for (i = 0; i < group->count; i++)] of [update_led_group],
    over the descriptors [led_fds[0]], ..., [led_fds[count - 1]]. *)
Fixpoint update_leds (fds : list Z) (brightness : Z) : M unit :=
  match fds with
  | [] => mret tt
  | fd :: rest => update_led fd brightness;; update_leds rest brightness
  end.

Definition update_led_group (group : led_group) (brightness : Z) : M unit :=
  update_leds (members group) brightness.

(** [ARRAY_SIZE(led_group->led_fds)] is [MAX_LEDS_IN_GROUP].  The group is
    passed by pointer in the source; here the updated group is returned
    with the result. *)
Definition add_led_by_fd_to_led_group (group : led_group) (fd : Z)
  : bool * led_group :=
  if decide (MAX_LEDS_IN_GROUP ≤ count group)%nat then (false, group)
  else (true, {| count := S (count group);
                 led_fds := <[count group := fd]> (led_fds group) |}).

Definition led_brightness_path (led_name : string) : string :=
  snprintf (LED_MAX_NAME_SIZE + 30)
    ("/sys/class/leds/" +:+ led_name +:+ "/brightness").

Definition add_led_by_name_to_led_group (group : led_group) (led_name : string)
  : M (bool * led_group) :=
  fd ← sys_open (led_brightness_path led_name) O_WRONLY;
  let '(added, group') :=
    if decide (fd < 0) then (false, group)
    else add_led_by_fd_to_led_group group fd in
  (if negb added then
     if decide (0 ≤ fd) then sys_close fd;; mret tt else mret tt
   else mret tt);;
  mret (added, group').

(** The loop [for (i = 0; i < led_group->count; i++)] of
    [close_led_group_leds]; what [close] returns is not looked at. *)
Fixpoint close_fds (fds : list Z) : M unit :=
  match fds with
  | [] => mret tt
  | fd :: rest => sys_close fd;; close_fds rest
  end.

Definition close_led_group_leds (group : led_group) : M unit :=
  close_fds (members group).

(** The loop [while (1)] of [track_led_brightness], run for at most
    [fuel] reads.  [true]: the function returned; [false]: it is still in
    the loop after [fuel] reads.  [WITH_TIMESTAMP] is 0. *)
Fixpoint track_led_brightness (fuel : nat) (fd : Z) (group : led_group)
  : M bool :=
  match fuel with
  | O => mret false
  | S fuel' =>
      '(r, brightness) ← sys_read fd;
      if decide (r = -1) then
        perror "Failed to read brightness from /dev/uleds";; mret true
      else
        update_led_group group brightness;;
        track_led_brightness fuel' fd group
  end.

Definition create_led_group_leader (led_name : string) : M Z :=
  let uleds_dev := {| name := strlcpy led_name LED_MAX_NAME_SIZE;
                      dev_max_brightness := max_brightness |} in
  fd ← sys_open "/dev/uleds" O_RDWR;
  if decide (fd < 0) then
    perror "Failed to create LED group leader";; mret fd
  else
    r ← sys_write fd (UledsUserDev uleds_dev);
    if decide (r = -1) then
      perror "Failed to create LED group leader";;
      sys_close fd;;
      mret (-1)
    else mret fd.

(** The loop of [main] over [argv[2]], ..., [argv[argc - 1]]: it stops at
    the first LED that cannot be added. *)
Fixpoint add_leds (names : list string) (group : led_group)
  : M (bool * led_group) :=
  match names with
  | [] => mret (true, group)
  | led_name :: rest =>
      '(added, group') ← add_led_by_name_to_led_group group led_name;
      if negb added then
        fprintf_stderr
          ("failed to add LED " +:+ led_name +:+ " to group" +:+ LF);;
        mret (false, group')
      else add_leds rest group'
  end.

(** The code after the label [done] of [main]. *)
Definition main_done (fd : Z) (group : led_group) (exit_code : Z) : M Z :=
  (if decide (0 ≤ fd) then sys_close fd;; mret tt else mret tt);;
  close_led_group_leds group;;
  mret exit_code.

Definition usage (argv0 : string) : string :=
  "format: " +:+ argv0 +:+ " <group_name> <led 1> <led 2> ..." +:+ LF.

Definition empty_led_group : led_group :=
  {| count := 0; led_fds := replicate MAX_LEDS_IN_GROUP 0 |}.

(** [main], with at most [fuel] reads in the loop.  [Some exit_code]:
    [main] returned; [None]: it is still in the loop.  [argv] has [argc]
    entries, the name of the program first; [argv !!! i] is [argv[i]],
    and the empty string where the list has no such entry. *)
Definition main (fuel : nat) (argv : list string) : M (option Z) :=
  let argc := length argv in
  let led_group := empty_led_group in
  if decide (argc < 4)%nat then
    fprintf_stderr (usage (argv !!! 0%nat));;
    Some <$> main_done (-1) led_group EXIT_FAILURE
  else
    fd ← create_led_group_leader (argv !!! 1%nat);
    if decide (fd = -1) then
      perror "Failed to open /dev/uleds";;
      Some <$> main_done fd led_group EXIT_FAILURE
    else
      '(added, led_group) ← add_leds (drop 2 argv) led_group;
      if negb added then Some <$> main_done fd led_group EXIT_FAILURE
      else
        returned ← track_led_brightness fuel fd led_group;
        if returned : bool then Some <$> main_done fd led_group EXIT_SUCCESS
        else mret None.

(** ** Vocabulary of the properties *)

(** What one [update_led] adds to the trace, given what its [write]
    returned. *)
Definition update_led_events (fd v r : Z) : list event :=
  ELseek fd 0 SEEK_SET :: EWrite fd (Text (brightness_text v)) r ::
  (if decide (r < 0) then [EPerror "failed to write to group LED"] else []).

(** The seeks and writes of a fan-out of [v] over [fds]. *)
Definition fan_out_ops (fds : list Z) (v : Z) : list fd_op :=
  fds ≫= λ fd, [OpLseek fd 0 SEEK_SET; OpWrite fd (Text (brightness_text v))].

(** The array [led_fds] has [MAX_LEDS_IN_GROUP] slots. *)
Definition wf_group (group : led_group) : Prop :=
  length (led_fds group) = MAX_LEDS_IN_GROUP.

(** The group after [fd] was stored at index [count]. *)
Definition with_led (group : led_group) (fd : Z) : led_group :=
  {| count := S (count group);
     led_fds := <[count group := fd]> (led_fds group) |}.

(** The three ways [add_led_by_name_to_led_group] can go: the [open]
    fails; the [open] succeeds but the group is full, and the descriptor
    is closed again; the descriptor is stored. *)
Inductive add_outcome (group : led_group) (path : string) (w : world)
  : bool * led_group → list event → world → Prop :=
| add_open_failed w' :
    open_fds w' = open_fds w →
    add_outcome group path w (false, group) [EOpen path O_WRONLY (-1)] w'
| add_group_full fd w' :
    0 ≤ fd → fd ∉ open_fds w → (MAX_LEDS_IN_GROUP ≤ count group)%nat →
    open_fds w' = open_fds w →
    add_outcome group path w (false, group)
      [EOpen path O_WRONLY fd; EClose fd 0] w'
| add_stored fd w' :
    0 ≤ fd → fd ∉ open_fds w → (count group < MAX_LEDS_IN_GROUP)%nat →
    open_fds w' = {[fd]} ∪ open_fds w →
    add_outcome group path w (true, with_led group fd)
      [EOpen path O_WRONLY fd] w'.

(** The table of the world is the table [base] at the start of [main]
    together with the descriptors [held] by the program. *)
Definition holds (base held : gset Z) (w : world) : Prop :=
  open_fds w = base ∪ held ∧ held ## base.

(** The program holds the leader and the members of the group, each of
    them once. *)
Definition group_held (leader : Z) (group : led_group) (held : gset Z) : Prop :=
  held = {[leader]} ∪ list_to_set (members group)
  ∧ NoDup (leader :: members group)
  ∧ wf_group group.

(** The next [read] on [fd] returns -1. *)
Definition read_fails (fd : Z) (w : world) : Prop :=
  rd_ret (env_read env (trace w) fd) = -1.

#[global] Instance read_fails_dec (fd : Z) (w : world) :
  Decision (read_fails fd w).
Proof. unfold read_fails. apply _. Defined.

(** The world after one pass through the body of the loop in which the
    [read] did not fail: the [read] and the fan-out of what it stored. *)
Definition track_iteration (fd : Z) (group : led_group) (w : world) : world :=
  let '((_, brightness), w1) := sys_read fd w in
  (update_led_group group brightness w1).2.

(** The world after [n] such passes. *)
Fixpoint after_iterations (n : nat) (fd : Z) (group : led_group) (w : world)
  : world :=
  match n with
  | O => w
  | S n' => after_iterations n' fd group (track_iteration fd group w)
  end.

(** The world in which the loop is left: the failed [read] and its
    message. *)
Definition track_stopped (fd : Z) (w : world) : world :=
  (perror "Failed to read brightness from /dev/uleds" (sys_read fd w).2).2.

(** The two phases of the setup in [main], as functions of the world in
    which [main] starts. *)
Definition leader_setup (argv : list string) (w : world) : Z * world :=
  create_led_group_leader (argv !!! 1%nat) w.

Definition follower_setup (argv : list string) (w : world)
  : bool * led_group * world :=
  add_leds (drop 2 argv) empty_led_group
    (leader_setup argv w).2.

(** The setup fails: arguments are missing, the leader cannot be created,
    or an LED cannot be added. *)
Definition setup_failed (argv : list string) (w : world) : Prop :=
  (length argv < 4)%nat
  ∨ (leader_setup argv w).1 = -1
  ∨ (follower_setup argv w).1.1 = false.

(** The mirror loop, started after the setup of [main], returns within
    [fuel] reads. *)
Definition mirror_loop_returns (fuel : nat) (argv : list string) (w : world)
  : Prop :=
  (track_led_brightness fuel (leader_setup argv w).1
     (follower_setup argv w).1.2 (follower_setup argv w).2).1 = true.

#[global] Instance setup_failed_dec (argv : list string) (w : world) :
  Decision (setup_failed argv w).
Proof. unfold setup_failed. apply _. Defined.

#[global] Instance mirror_loop_returns_dec (fuel : nat) (argv : list string)
    (w : world) : Decision (mirror_loop_returns fuel argv w).
Proof. unfold mirror_loop_returns. apply _. Defined.

(** ** Vocabulary of the further properties *)

(** The paths of all [open]s of a list of events, failed ones included. *)
Definition open_path_of (e : event) : list string :=
  match e with
  | EOpen path _ _ => [path]
  | _ => []
  end.

Definition open_paths (evs : list event) : list string := evs ≫= open_path_of.

(** What the mirror loop may do: read the leader, seek to offset 0 and
    write text on a member of the group, and print a message. *)
Definition loop_event (leader : Z) (fds : list Z) (e : event) : Prop :=
  match e with
  | ERead fd _ _ => fd = leader
  | ELseek fd offset _ => fd ∈ fds ∧ offset = 0
  | EWrite fd (Text _) _ => fd ∈ fds
  | EPerror _ => True
  | _ => False
  end.

(** No brightness is read and none is written: no [read], no [lseek] and
    no [write] of text. *)
Definition no_brightness_io (e : event) : Prop :=
  match e with
  | ERead _ _ _ | ELseek _ _ _ | EWrite _ (Text _) _ => False
  | _ => True
  end.

(** A [close], if the event is one, returned 0. *)
Definition close_succeeded (e : event) : Prop :=
  match e with
  | EClose _ r => r = 0
  | _ => True
  end.

(** A message on the standard error stream. *)
Definition is_diagnostic (e : event) : Prop :=
  match e with
  | EPerror _ | EStderr _ => True
  | _ => False
  end.

(** The device description [create_led_group_leader] writes. *)
Definition leader_description (led_name : string) : payload :=
  UledsUserDev {| name := strlcpy led_name LED_MAX_NAME_SIZE;
                  dev_max_brightness := max_brightness |}.

(** The three ways [create_led_group_leader] can go: the [open] fails;
    the [write] of the device description returns -1, and the descriptor
    is closed again; the descriptor is returned. *)
Inductive leader_outcome (led_name : string) (w : world)
  : Z → list event → world → Prop :=
| leader_open_failed w' :
    open_fds w' = open_fds w →
    leader_outcome led_name w (-1)
      [EOpen "/dev/uleds" O_RDWR (-1);
       EPerror "Failed to create LED group leader"] w'
| leader_refused fd w' :
    0 ≤ fd → fd ∉ open_fds w → open_fds w' = open_fds w →
    leader_outcome led_name w (-1)
      [EOpen "/dev/uleds" O_RDWR fd;
       EWrite fd (leader_description led_name) (-1);
       EPerror "Failed to create LED group leader";
       EClose fd 0] w'
| leader_registered fd r w' :
    0 ≤ fd → fd ∉ open_fds w → r ≠ -1 →
    open_fds w' = {[fd]} ∪ open_fds w →
    leader_outcome led_name w fd
      [EOpen "/dev/uleds" O_RDWR fd;
       EWrite fd (leader_description led_name) r] w'.

(** The values the first [n] passes through the loop read. *)
Fixpoint read_values (n : nat) (fd : Z) (group : led_group) (w : world)
  : list Z :=
  match n with
  | O => []
  | S n' =>
      to_int (rd_buf (env_read env (trace w) fd))
      :: read_values n' fd group (track_iteration fd group w)
  end.

(** * Properties *)

(** ** Text *)

Lemma substring_all (s : string) (n : nat) :
  (String.length s ≤ n)%nat → String.substring 0 n s = s.
Proof.
  revert n. induction s as [|c s IH]; intros [|n] Hlen; simpl in *;
    try done; try lia.
  f_equal. apply IH. lia.
Qed.

Lemma pretty_N_go_length (k : nat) (x : N) (s : string) :
  (x < 10 ^ N.of_nat k)%N →
  (String.length (pretty_N_go x s) ≤ k + String.length s)%nat.
Proof.
  revert x s. induction k as [|k IH]; intros x s Hx.
  - assert (x = 0%N) as -> by (simpl in Hx; lia).
    rewrite pretty_N_go_0. lia.
  - destruct (decide (x = 0%N)) as [->|Hne].
    + rewrite pretty_N_go_0. lia.
    + rewrite pretty_N_go_step by lia.
      etrans; [apply IH|simpl; lia].
      rewrite Nat2N.inj_succ, N.pow_succ_r' in Hx.
      apply N.Div0.div_lt_upper_bound. lia.
Qed.

Lemma pretty_N_length (k : nat) (x : N) :
  (0 < k)%nat → (x < 10 ^ N.of_nat k)%N → (String.length (pretty x) ≤ k)%nat.
Proof.
  intros Hk Hx. unfold pretty, pretty_N. case_decide.
  - simpl. lia.
  - etrans; [by apply (pretty_N_go_length k)|]. simpl. lia.
Qed.

Lemma to_int_range (z : Z) : - 2 ^ 31 ≤ to_int z < 2 ^ 31.
Proof.
  unfold to_int. pose proof (Z.mod_pos_bound (z + 2 ^ 31) (2 ^ 32)). lia.
Qed.

Lemma pretty_int_length (v : Z) :
  - 2 ^ 31 ≤ v < 2 ^ 31 → (String.length (pretty v) ≤ 11)%nat.
Proof.
  intros Hv. unfold pretty, pretty_Z. destruct v as [|p|p].
  - simpl. lia.
  - etrans; [apply (pretty_N_length 10); [lia|]|lia].
    change (10 ^ N.of_nat 10)%N with 10000000000%N. lia.
  - change (String.length (String "-" (pretty p)) ≤ 11)%nat. simpl.
    apply le_n_S. apply (pretty_N_length 10); [lia|].
    change (10 ^ N.of_nat 10)%N with 10000000000%N. lia.
Qed.

Lemma string_length_app (s t : string) :
  String.length (s +:+ t) = (String.length s + String.length t)%nat.
Proof. induction s as [|c s IH]; simpl; [done|]. by rewrite IH. Qed.

(** The buffer of [update_led] is large enough for every [int]. *)
Lemma brightness_text_int (v : Z) :
  - 2 ^ 31 ≤ v < 2 ^ 31 → brightness_text v = pretty v +:+ LF.
Proof.
  intros Hv. unfold brightness_text, snprintf. apply substring_all.
  rewrite string_length_app. pose proof (pretty_int_length v Hv).
  simpl. lia.
Qed.

(** ** The descriptor table *)

Lemma lowest_free_from_spec (n : nat) (fd : Z) (used : gset Z) :
  (size (filter (λ x, (fd ≤ x)%Z) used) ≤ n)%nat →
  fd ≤ lowest_free_from n fd used ∧ lowest_free_from n fd used ∉ used.
Proof.
  revert fd. induction n as [|n IH]; intros fd Hsize; simpl.
  - split; [lia|]. intros Hin.
    assert (fd ∈ filter (λ x, fd ≤ x) used) as Hf.
    { apply elem_of_filter. split; [lia|done]. }
    apply Nat.le_0_r, size_empty_inv in Hsize.
    by apply Hsize, not_elem_of_empty in Hf.
  - case_decide as Hin; [|split; [lia|done]].
    destruct (IH (fd + 1)) as [Hle Hfree]; [|split; [lia|done]].
    assert (filter (λ x, fd + 1 ≤ x) used ⊂ filter (λ x, fd ≤ x) used) as Hsub.
    { split.
      - intros x. rewrite !elem_of_filter. intros [??]. split; [lia|done].
      - intros Hsup. specialize (Hsup fd). rewrite !elem_of_filter in Hsup.
        destruct Hsup as [? _]; [split; [lia|done]|lia]. }
    apply subset_size in Hsub. lia.
Qed.

Lemma filter_from_size (fd : Z) (used : gset Z) :
  (size (filter (λ x, (fd ≤ x)%Z) used) ≤ size used)%nat.
Proof.
  apply subseteq_size. intros x. rewrite elem_of_filter. tauto.
Qed.

Lemma lowest_free_nonneg (used : gset Z) : 0 ≤ lowest_free used.
Proof. apply lowest_free_from_spec, filter_from_size. Qed.

Lemma lowest_free_fresh (used : gset Z) : lowest_free used ∉ used.
Proof. apply lowest_free_from_spec, filter_from_size. Qed.

(** ** Running a computation: the events it adds and what holds after *)

Lemma events_since_app (w w' : world) (evs : list event) :
  trace w' = trace w ++ evs → events_since w w' = evs.
Proof. intros Htr. unfold events_since. by rewrite Htr, drop_app_length. Qed.

Lemma wp_elim {A} (m : M A) (w : world) Q :
  wp m w Q → Q (m w).1 (events_since w (m w).2) (m w).2.
Proof. intros (evs & Htr & HQ). by rewrite (events_since_app _ _ _ Htr). Qed.

Lemma wp_mono {A} (m : M A) (w : world) (Q R : A → list event → world → Prop) :
  wp m w Q → (∀ a evs w', Q a evs w' → R a evs w') → wp m w R.
Proof. intros (evs & Htr & HQ) HQR. exists evs. eauto. Qed.

Lemma wp_and {A} (m : M A) (w : world) (Q R : A → list event → world → Prop) :
  wp m w Q → wp m w R → wp m w (λ a evs w', Q a evs w' ∧ R a evs w').
Proof.
  intros HQ HR. apply wp_elim in HR. destruct HQ as (evs & Htr & HQ).
  exists evs. rewrite (events_since_app _ _ _ Htr) in HR. eauto.
Qed.

Lemma wp_extends {A} (m : M A) (w : world) Q :
  wp m w Q → trace (m w).2 = trace w ++ events_since w (m w).2.
Proof. intros (evs & Htr & HQ). by rewrite (events_since_app _ _ _ Htr). Qed.

Lemma wp_ret {A} (a : A) (w : world) (Q : A → list event → world → Prop) :
  Q a [] w → wp (mret a) w Q.
Proof. intros HQ. exists []. simpl. by rewrite app_nil_r. Qed.

Lemma wp_bind {A B} (m : M A) (k : A → M B) (w : world)
    (Q : B → list event → world → Prop) :
  wp m w (λ a evs1 w1, wp (k a) w1 (λ b evs2 w2, Q b (evs1 ++ evs2) w2)) →
  wp (m ≫= k) w Q.
Proof.
  intros (evs1 & Htr1 & evs2 & Htr2 & HQ).
  unfold wp, mbind, M_bind, bind. destruct (m w) as [a w1]. simpl in *.
  exists (evs1 ++ evs2). rewrite Htr2, Htr1, app_assoc. eauto.
Qed.

Lemma wp_fmap {A B} (f : A → B) (m : M A) (w : world)
    (Q : B → list event → world → Prop) :
  wp m w (λ a evs w', Q (f a) evs w') → wp (f <$> m) w Q.
Proof.
  intros (evs & Htr & HQ). unfold wp, fmap, M_fmap, bind, ret.
  destruct (m w) as [a w1]. simpl in *. eauto.
Qed.

Lemma wp_emit (e : event) (w : world) (Q : unit → list event → world → Prop) :
  Q tt [e] {| open_fds := open_fds w; trace := trace w ++ [e] |} →
  wp (emit e) w Q.
Proof. intros HQ. exists [e]. eauto. Qed.

Lemma wp_sys_open (path : string) (flags : open_flag) (w : world) Q :
  (∀ fd w',
     (fd = (-1) ∧ open_fds w' = open_fds w)
     ∨ (0 ≤ fd ∧ (fd ∉ open_fds w) ∧ open_fds w' = {[fd]} ∪ open_fds w) →
     trace w' = trace w ++ [EOpen path flags fd] →
     Q fd [EOpen path flags fd] w') →
  wp (sys_open path flags) w Q.
Proof.
  intros HQ. unfold wp, sys_open. destruct (env_open _ _ _ _); simpl.
  - eexists. split; [done|]. apply HQ; [|done]. right.
    auto using lowest_free_nonneg, lowest_free_fresh.
  - eexists. split; [done|]. apply HQ; [|done]. by left.
Qed.

Lemma wp_sys_close (fd : Z) (w : world) Q :
  (∀ r w',
     r = (if decide (fd ∈ open_fds w) then 0 else -1) →
     open_fds w' = open_fds w ∖ {[fd]} →
     trace w' = trace w ++ [EClose fd r] →
     Q r [EClose fd r] w') →
  wp (sys_close fd) w Q.
Proof. intros HQ. eexists. split; [done|]. by apply HQ. Qed.

Lemma wp_sys_write (fd : Z) (data : payload) (w : world) Q :
  (∀ r w',
     r = env_write env (trace w) fd data →
     open_fds w' = open_fds w →
     trace w' = trace w ++ [EWrite fd data r] →
     Q r [EWrite fd data r] w') →
  wp (sys_write fd data) w Q.
Proof. intros HQ. eexists. split; [done|]. by apply HQ. Qed.

Lemma wp_sys_read (fd : Z) (w : world) Q :
  (∀ r v w',
     r = rd_ret (env_read env (trace w) fd) →
     v = to_int (rd_buf (env_read env (trace w) fd)) →
     open_fds w' = open_fds w →
     trace w' = trace w ++ [ERead fd r v] →
     Q (r, v) [ERead fd r v] w') →
  wp (sys_read fd) w Q.
Proof. intros HQ. eexists. split; [done|]. by apply HQ. Qed.

(** *** The fan-out *)

Lemma wp_update_led (fd v : Z) (w : world) Q :
  (∀ r w',
     open_fds w' = open_fds w →
     trace w' = trace w ++ update_led_events fd v r →
     Q tt (update_led_events fd v r) w') →
  wp (update_led fd v) w Q.
Proof.
  intros HQ. unfold update_led.
  apply wp_bind, wp_emit. apply wp_bind, wp_sys_write.
  intros r w' _ Hfds Htr. simpl in *. unfold update_led_events in HQ.
  specialize (HQ r). destruct (decide (r < 0)).
  - apply wp_emit. apply HQ; simpl; [done|].
    by rewrite Htr, <- !app_assoc.
  - apply wp_ret. apply HQ; simpl; [done|].
    by rewrite Htr, <- !app_assoc.
Qed.

Lemma replay_app (held : gset Z) (evs1 evs2 : list event) :
  replay held (evs1 ++ evs2) = replay held evs1 ≫= λ held', replay held' evs2.
Proof.
  revert held. induction evs1 as [|e evs1 IH]; intros held; simpl; [done|].
  destruct (replay_event held e); simpl; [apply IH|done].
Qed.

Lemma update_led_events_ops (fd v r : Z) (rest : list event) :
  fd_ops (update_led_events fd v r ++ rest)
  = OpLseek fd 0 SEEK_SET :: OpWrite fd (Text (brightness_text v))
    :: fd_ops rest.
Proof. unfold update_led_events. by destruct (decide (r < 0)). Qed.

Lemma update_led_events_reported (fd v r : Z) (rest : list event) :
  write_failures_reported (update_led_events fd v r ++ rest)
  = write_failures_reported rest.
Proof. unfold update_led_events. simpl. by destruct (decide (r < 0)). Qed.

Lemma update_led_events_replay (fd v r : Z) (rest : list event)
    (held : gset Z) :
  replay held (update_led_events fd v r ++ rest) = replay held rest.
Proof. unfold update_led_events. by destruct (decide (r < 0)). Qed.

Lemma update_leds_spec (fds : list Z) (v : Z) (w : world) :
  wp (update_leds fds v) w (λ _ evs w',
    open_fds w' = open_fds w
    ∧ fd_ops evs = fan_out_ops fds v
    ∧ write_failures_reported evs = true
    ∧ ∀ held, replay held evs = Some held).
Proof.
  revert w. induction fds as [|fd fds IH]; intros w; simpl.
  - by apply wp_ret.
  - apply wp_bind, wp_update_led. intros r w1 Hfds1 _.
    eapply wp_mono; [apply IH|]. cbv beta.
    intros _ evs w' (Hfds & Hops & Hrep & Hheld).
    rewrite update_led_events_ops, update_led_events_reported.
    split_and!; [congruence|by rewrite Hops|done|].
    intros held. by rewrite update_led_events_replay.
Qed.

Lemma update_led_group_spec (group : led_group) (v : Z) (w : world) :
  wp (update_led_group group v) w (λ _ evs w',
    open_fds w' = open_fds w
    ∧ fd_ops evs = fan_out_ops (members group) v
    ∧ write_failures_reported evs = true
    ∧ ∀ held, replay held evs = Some held).
Proof. apply update_leds_spec. Qed.

Lemma update_leds_blocks (fds : list Z) (v : Z) (w : world) :
  wp (update_leds fds v) w (λ _ evs _,
    ∃ rs, length rs = length fds
          ∧ evs = mjoin (zip_with (λ fd r, update_led_events fd v r) fds rs)).
Proof.
  revert w. induction fds as [|fd fds IH]; intros w; simpl.
  - apply wp_ret. by exists [].
  - apply wp_bind, wp_update_led. intros r w1 _ _.
    eapply wp_mono; [apply IH|]. cbv beta.
    intros _ evs _ (rs & Hlen & ->). exists (r :: rs). simpl. by rewrite Hlen.
Qed.

(** *** The follower set *)

Lemma members_with_led (group : led_group) (fd : Z) :
  (count group < length (led_fds group))%nat →
  members (with_led group fd) = members group ++ [fd].
Proof.
  intros Hlt. unfold members, with_led. cbn [count led_fds].
  rewrite seq_S, fmap_app. simpl. f_equal.
  - apply list_fmap_ext. intros j i Hi.
    apply lookup_seq in Hi as [Hij Hi]. simpl in Hij.
    apply list_lookup_total_insert_ne. lia.
  - f_equal. by apply list_lookup_total_insert_eq.
Qed.

Lemma add_led_by_fd_full (group : led_group) (fd : Z) :
  (MAX_LEDS_IN_GROUP ≤ count group)%nat →
  add_led_by_fd_to_led_group group fd = (false, group).
Proof. intros Hfull. unfold add_led_by_fd_to_led_group. by case_decide. Qed.

Lemma add_led_by_fd_room (group : led_group) (fd : Z) :
  (count group < MAX_LEDS_IN_GROUP)%nat →
  add_led_by_fd_to_led_group group fd = (true, with_led group fd).
Proof.
  intros Hroom. unfold add_led_by_fd_to_led_group. case_decide; [lia|done].
Qed.

Lemma wp_add_led_by_name (group : led_group) (led_name : string) (w : world) :
  wp (add_led_by_name_to_led_group group led_name) w
    (add_outcome group (led_brightness_path led_name) w).
Proof.
  unfold add_led_by_name_to_led_group.
  apply wp_bind, wp_sys_open.
  intros fd w1 [[-> Hfds]|(Hfd & Hfresh & Hfds)] _.
  - simpl. apply wp_bind, wp_ret, wp_ret. by constructor.
  - destruct (decide (fd < 0)); [lia|].
    destruct (decide (MAX_LEDS_IN_GROUP ≤ count group)%nat) as [Hfull|Hroom].
    + rewrite add_led_by_fd_full by done. simpl.
      destruct (decide (0 ≤ fd)); [|lia].
      apply wp_bind, wp_bind, wp_sys_close. intros r w2 Hr Hfds2 _.
      apply wp_ret, wp_ret. simpl.
      rewrite Hfds, decide_True in Hr by set_solver. subst r.
      constructor; try done. rewrite Hfds2, Hfds. set_solver.
    + rewrite add_led_by_fd_room by lia. simpl.
      apply wp_bind, wp_ret, wp_ret. simpl. constructor; try done. lia.
Qed.

(** *** Closing *)

Lemma wp_close_fds (fds : list Z) (w : world) :
  wp (close_fds fds) w (λ _ evs w',
    open_fds w' = open_fds w ∖ list_to_set fds
    ∧ ∀ held : gset Z, NoDup fds → list_to_set fds ⊆ held →
        replay held evs = Some (held ∖ list_to_set fds)).
Proof.
  revert w. induction fds as [|fd fds IH]; intros w; simpl.
  - apply wp_ret. split; [set_solver|].
    intros held _ _. simpl. f_equal. set_solver.
  - apply wp_bind, wp_sys_close. intros r w1 _ Hfds1 _.
    eapply wp_mono; [apply IH|]. cbv beta.
    intros _ evs w' [Hfds Hrep]. split.
    + rewrite Hfds, Hfds1. set_solver.
    + intros held Hnd Hsub. apply NoDup_cons in Hnd as [Hnotin Hnd]. simpl.
      rewrite decide_True by set_solver.
      rewrite Hrep; [|done|set_solver]. f_equal. set_solver.
Qed.

(** Closing descriptors that are not open: every [close] fails and the
    table stays as it is. *)
Lemma wp_close_fds_closed (fds : list Z) (w : world) :
  (∀ fd, fd ∈ fds → fd ∉ open_fds w) →
  wp (close_fds fds) w (λ _ evs w',
    open_fds w' = open_fds w ∧ evs = (λ fd, EClose fd (-1)) <$> fds).
Proof.
  revert w. induction fds as [|fd fds IH]; intros w Hclosed; simpl.
  - by apply wp_ret.
  - apply wp_bind, wp_sys_close. intros r w1 Hr Hfds1 _.
    assert (fd ∉ open_fds w) as Hfd by (apply Hclosed; set_solver).
    rewrite decide_False in Hr by done. subst r.
    assert (open_fds w1 = open_fds w) as Heq by (rewrite Hfds1; set_solver).
    eapply wp_mono; [apply IH|].
    + intros fd' Hin. rewrite Heq. apply Hclosed. set_solver.
    + cbv beta. intros _ evs w' [Hfds ->]. split; [congruence|done].
Qed.

(** *** Descriptors held by the program *)

Lemma wf_with_led (group : led_group) (fd : Z) :
  wf_group group → wf_group (with_led group fd).
Proof. unfold wf_group, with_led. simpl. by rewrite length_insert. Qed.

Lemma group_held_with_led (leader fd : Z) (group : led_group) (held : gset Z) :
  (count group < MAX_LEDS_IN_GROUP)%nat → fd ∉ held →
  group_held leader group held →
  group_held leader (with_led group fd) ({[fd]} ∪ held).
Proof.
  intros Hroom Hfresh (-> & Hnd & Hwf). unfold group_held.
  rewrite members_with_led by (rewrite Hwf; lia).
  split_and!.
  - rewrite list_to_set_app_L. simpl. set_solver.
  - apply NoDup_cons in Hnd as [Hl Hnd]. apply NoDup_cons. split.
    + set_solver.
    + apply NoDup_app. split_and!; [done|set_solver|apply NoDup_singleton].
  - by apply wf_with_led.
Qed.

Lemma wp_add_leds_held (names : list string) (group : led_group) (w : world)
    (base held : gset Z) (leader : Z) :
  holds base held w → group_held leader group held →
  wp (add_leds names group) w (λ res evs w',
    ∃ held', replay held evs = Some held'
             ∧ holds base held' w'
             ∧ group_held leader res.2 held').
Proof.
  revert group w held.
  induction names as [|led_name names IH]; intros group w held Hw Hg; simpl.
  - apply wp_ret. by exists held.
  - apply wp_bind. eapply wp_mono; [apply wp_add_led_by_name|]. cbv beta.
    destruct Hw as [Hfds Hdisj].
    intros res evs w1 [w1' Hfds1|fd w1' Hfd Hfresh Hfull Hfds1
                      |fd w1' Hfd Hfresh Hroom Hfds1]; simpl.
    + apply wp_bind, wp_emit, wp_ret. exists held. simpl.
      split_and!; [done| |done]. split; [simpl; congruence|done].
    + apply wp_bind, wp_emit, wp_ret. exists held. simpl.
      rewrite decide_True by done.
      rewrite decide_False by set_solver.
      rewrite decide_True by set_solver.
      split_and!; [f_equal; set_solver| |done].
      split; [simpl; congruence|done].
    + eapply wp_mono; [apply (IH _ _ ({[fd]} ∪ held))|].
      * split; [rewrite Hfds1, Hfds|]; set_solver.
      * apply group_held_with_led; [done|set_solver|done].
      * cbv beta. intros res' evs' w' (held' & Hrep & Hw' & Hg').
        exists held'. simpl. rewrite decide_True by done.
        by rewrite decide_False by set_solver.
Qed.

(** *** The leader *)

Lemma wp_create_led_group_leader (led_name : string) (w : world) :
  wp (create_led_group_leader led_name) w (λ fd evs w',
    (∃ r rest, evs = EOpen "/dev/uleds" O_RDWR r :: rest)
    ∧ ((fd = -1 ∧ open_fds w' = open_fds w
        ∧ ∀ held : gset Z, held ⊆ open_fds w → replay held evs = Some held)
       ∨ (0 ≤ fd ∧ (fd ∉ open_fds w) ∧ open_fds w' = {[fd]} ∪ open_fds w
          ∧ ∀ held : gset Z, held ⊆ open_fds w →
              replay held evs = Some ({[fd]} ∪ held)))).
Proof.
  unfold create_led_group_leader.
  apply wp_bind, wp_sys_open.
  intros fd w1 [[-> Hfds]|(Hfd & Hfresh & Hfds)] _.
  - simpl. apply wp_bind, wp_emit, wp_ret. simpl. split; [eauto|]. left.
    split_and!; [done|done|]. intros held _. done.
  - destruct (decide (fd < 0)); [lia|].
    apply wp_bind, wp_sys_write. intros r w2 _ Hfds2 _.
    destruct (decide (r = -1)).
    + apply wp_bind, wp_emit, wp_bind, wp_sys_close. intros r' w3 _ Hfds3 _.
      apply wp_ret. simpl in *. split; [eauto|]. left.
      split_and!; [done|rewrite Hfds3, Hfds2, Hfds; set_solver|].
      intros held Hsub. rewrite decide_True by done.
      rewrite decide_False by set_solver.
      rewrite decide_True by set_solver. f_equal. set_solver.
    + apply wp_ret. simpl. split; [eauto|]. right.
      split_and!; [done|done|congruence|].
      intros held Hsub. rewrite decide_True by done.
      by rewrite decide_False by set_solver.
Qed.

(** *** The end of [main] *)

Lemma main_done_nothing_held (exit_code : Z) (w : world) :
  main_done (-1) empty_led_group exit_code w = (exit_code, w).
Proof. done. Qed.

Lemma wp_main_done (fd : Z) (group : led_group) (exit_code : Z) (w : world)
    (base held : gset Z) :
  0 ≤ fd → holds base held w → group_held fd group held →
  wp (main_done fd group exit_code) w (λ code evs w',
    code = exit_code ∧ replay held evs = Some ∅ ∧ open_fds w' = base).
Proof.
  intros Hfd [Hfds Hdisj] (Hheld & Hnd & Hwf). unfold main_done.
  rewrite decide_True by done. apply NoDup_cons in Hnd as [Hl Hnd].
  apply wp_bind, wp_bind, wp_sys_close. intros r w1 _ Hfds1 _.
  apply wp_ret, wp_bind.
  eapply wp_mono; [apply wp_close_fds|]. cbv beta.
  intros _ evs w2 [Hfds2 Hrep]. apply wp_ret. split; [done|]. simpl.
  rewrite decide_True by set_solver. rewrite app_nil_r.
  rewrite Hrep; [|done|set_solver]. split; [f_equal; set_solver|].
  rewrite Hfds2, Hfds1, Hfds. set_solver.
Qed.

Lemma wp_main_done_nothing_held (exit_code : Z) (w : world) Q :
  Q exit_code [] w → wp (main_done (-1) empty_led_group exit_code) w Q.
Proof.
  intros HQ. exists []. rewrite main_done_nothing_held, app_nil_r. done.
Qed.

(** *** The mirror loop *)

Lemma track_step (fuel : nat) (fd : Z) (group : led_group) (w : world) :
  track_led_brightness (S fuel) fd group w
  = if decide (read_fails fd w) then (true, track_stopped fd w)
    else track_led_brightness fuel fd group (track_iteration fd group w).
Proof.
  unfold read_fails, track_iteration, track_stopped. simpl.
  unfold mbind, M_bind, bind, sys_read. simpl.
  destruct (decide (rd_ret _ = -1)); [done|].
  by destruct (update_led_group _ _ _).
Qed.

Lemma track_returns (fuel : nat) (fd : Z) (group : led_group) (w : world) :
  (track_led_brightness fuel fd group w).1 = true
  ↔ ∃ k, (k < fuel)%nat ∧ read_fails fd (after_iterations k fd group w).
Proof.
  revert w. induction fuel as [|fuel IH]; intros w.
  - simpl. split; [done|]. intros (k & ? & _). lia.
  - rewrite track_step. destruct (decide (read_fails fd w)) as [Hf|Hf]; simpl.
    + split; [|done]. intros _. exists 0%nat. split; [lia|done].
    + rewrite IH. split.
      * intros (k & Hk & Hfail). exists (S k). split; [lia|done].
      * intros ([|k] & Hk & Hfail); [done|]. exists k. split; [lia|done].
Qed.

(** The loop returns from the first world in which the [read] fails,
    and from no other. *)
Lemma track_result (fuel : nat) (fd : Z) (group : led_group) (w : world) :
  (∃ k, (k < fuel)%nat
        ∧ read_fails fd (after_iterations k fd group w)
        ∧ (∀ j, (j < k)%nat → ¬ read_fails fd (after_iterations j fd group w))
        ∧ track_led_brightness fuel fd group w
          = (true, track_stopped fd (after_iterations k fd group w)))
  ∨ ((∀ j, (j < fuel)%nat → ¬ read_fails fd (after_iterations j fd group w))
     ∧ track_led_brightness fuel fd group w
       = (false, after_iterations fuel fd group w)).
Proof.
  revert w. induction fuel as [|fuel IH]; intros w.
  - right. split; [intros; lia|done].
  - rewrite track_step. destruct (decide (read_fails fd w)) as [Hf|Hf].
    + left. exists 0%nat. split_and!; [lia|done|intros; lia|done].
    + destruct (IH (track_iteration fd group w))
        as [(k & Hk & Hfail & Hbefore & Heq)|[Hnone Heq]].
      * left. exists (S k). split_and!; [lia|done| |done].
        intros [|j] Hj; [done|]. apply Hbefore. lia.
      * right. split; [|done]. intros [|j] Hj; [done|]. apply Hnone. lia.
Qed.

Lemma wp_track (fuel : nat) (fd : Z) (group : led_group) (w : world) :
  wp (track_led_brightness fuel fd group) w (λ _ evs w',
    open_fds w' = open_fds w ∧ ∀ held, replay held evs = Some held).
Proof.
  revert w. induction fuel as [|fuel IH]; intros w; simpl.
  - by apply wp_ret.
  - apply wp_bind, wp_sys_read. intros r v w1 _ _ Hfds1 _.
    destruct (decide (r = -1)).
    + apply wp_bind, wp_emit, wp_ret. simpl. done.
    + apply wp_bind. eapply wp_mono; [apply update_led_group_spec|]. cbv beta.
      intros _ evs1 w2 (Hfds2 & _ & _ & Hrep1).
      eapply wp_mono; [apply IH|]. cbv beta.
      intros _ evs2 w3 [Hfds3 Hrep2]. split; [congruence|].
      intros held. simpl. rewrite replay_app, Hrep1. apply Hrep2.
Qed.

(** *** [main] *)

Lemma group_held_empty (leader : Z) :
  group_held leader empty_led_group {[leader]}.
Proof.
  split_and!; [set_solver|apply NoDup_singleton|done].
Qed.

Lemma wp_main (fuel : nat) (argv : list string) (w : world) :
  wp (main fuel argv) w (λ res evs w',
    ((4 ≤ length argv)%nat →
     ∃ r rest, evs = EOpen "/dev/uleds" O_RDWR r :: rest)
    ∧ (is_Some res → replay ∅ evs = Some ∅ ∧ open_fds w' = open_fds w)).
Proof.
  unfold main. destruct (decide (length argv < 4)%nat).
  { apply wp_bind, wp_emit, wp_fmap, wp_main_done_nothing_held.
    split; [lia|done]. }
  apply wp_bind.
  eapply wp_mono; [apply wp_create_led_group_leader|]. cbv beta.
  intros fd evs1 w1
    [(r & rest & Hevs1) [(-> & Hfds1 & Hrep1)|(Hfd & Hfresh & Hfds1 & Hrep1)]].
  { rewrite decide_True by done.
    apply wp_bind, wp_emit, wp_fmap, wp_main_done_nothing_held.
    split; [intros _; rewrite Hevs1; simpl; eauto|].
    intros _. rewrite app_nil_r, replay_app, Hrep1 by set_solver. done. }
  rewrite decide_False by lia.
  assert (holds (open_fds w) {[fd]} w1) as Hw1.
  { split; [rewrite Hfds1|]; set_solver. }
  apply wp_bind.
  eapply wp_mono;
    [apply (wp_add_leds_held _ _ _ _ _ fd Hw1 (group_held_empty fd))|].
  cbv beta. intros [added group] evs2 w2 (held & Hrep2 & Hw2 & Hg). simpl in Hg.
  assert (replay ∅ (evs1 ++ evs2) = Some held) as Hrep12.
  { rewrite replay_app, Hrep1 by set_solver. simpl.
    by replace ({[fd]} ∪ ∅ : gset Z) with ({[fd]} : gset Z) by set_solver. }
  destruct added; simpl.
  - apply wp_bind. eapply wp_mono; [apply wp_track|]. cbv beta.
    intros returned evs3 w3 [Hfds3 Hrep3].
    assert (holds (open_fds w) held w3) as Hw3.
    { destruct Hw2. split; [congruence|done]. }
    destruct returned.
    + apply wp_fmap.
      eapply wp_mono; [by apply (wp_main_done fd group _ _ (open_fds w) held)|].
      cbv beta. intros code evs4 w4 (_ & Hrep4 & Hfds4).
      split; [intros _; rewrite Hevs1; simpl; eauto|].
      intros _. split; [|done].
      rewrite !app_assoc, replay_app, replay_app, Hrep12. simpl.
      by rewrite Hrep3.
    + apply wp_ret. split; [intros _; rewrite Hevs1; simpl; eauto|].
      by intros [? ?].
  - apply wp_fmap.
    eapply wp_mono; [by apply (wp_main_done fd group _ _ (open_fds w) held)|].
    cbv beta. intros code evs4 w4 (_ & Hrep4 & Hfds4).
    split; [intros _; rewrite Hevs1; simpl; eauto|].
    intros _. split; [|done].
    by rewrite app_assoc, replay_app, Hrep12.
Qed.

Lemma main_done_code (fd : Z) (group : led_group) (exit_code : Z) (w : world) :
  (main_done fd group exit_code w).1 = exit_code.
Proof.
  unfold main_done, mbind, M_bind, bind.
  destruct (decide (0 ≤ fd)); simpl; by destruct (close_led_group_leds _ _).
Qed.

Lemma fmap_main_done (fd : Z) (group : led_group) (code : Z) (w : world) :
  (Some <$> main_done fd group code) w
  = (Some code, (main_done fd group code w).2).
Proof.
  unfold fmap, M_fmap, bind, ret.
  pose proof (main_done_code fd group code w) as Hcode.
  destruct (main_done _ _ _ _). simpl in *. by subst.
Qed.

(** [main] as a case distinction over its phases. *)
Lemma main_cases (fuel : nat) (argv : list string) (w : world) :
  main fuel argv w
  = if decide (length argv < 4)%nat then
      (Some EXIT_FAILURE,
       {| open_fds := open_fds w;
          trace := trace w ++ [EStderr (usage (argv !!! 0%nat))] |})
    else
      let fd := (leader_setup argv w).1 in
      if decide (fd = -1) then
        (Some EXIT_FAILURE,
         (perror "Failed to open /dev/uleds" (leader_setup argv w).2).2)
      else
        let group := (follower_setup argv w).1.2 in
        let w2 := (follower_setup argv w).2 in
        if (follower_setup argv w).1.1 then
          let tracked := track_led_brightness fuel fd group w2 in
          if tracked.1 then
            (Some EXIT_SUCCESS, (main_done fd group EXIT_SUCCESS tracked.2).2)
          else (None, tracked.2)
        else (Some EXIT_FAILURE, (main_done fd group EXIT_FAILURE w2).2).
Proof.
  unfold follower_setup, leader_setup, main.
  destruct (decide (length argv < 4)%nat) as [Hargc|Hargc]; [done|].
  unfold mbind, M_bind, bind.
  destruct (create_led_group_leader _ _) as [fd w1]. cbn [fst snd].
  destruct (decide (fd = -1)) as [Hfd|Hfd].
  { by rewrite Hfd. }
  destruct (add_leds _ _ _) as [[[] group] w2]; cbn [fst snd negb].
  - destruct (track_led_brightness _ _ _ _) as [[] w3]; cbn [fst snd].
    + apply fmap_main_done.
    + done.
  - apply fmap_main_done.
Qed.

Lemma main_exit_code (fuel : nat) (argv : list string) (w : world) :
  (main fuel argv w).1
  = if decide (setup_failed argv w) then Some EXIT_FAILURE
    else if decide (mirror_loop_returns fuel argv w) then Some EXIT_SUCCESS
    else None.
Proof.
  rewrite main_cases.
  destruct (decide (setup_failed argv w)) as [Hs|Hs];
    [|destruct (decide (mirror_loop_returns fuel argv w)) as [Hm|Hm]];
    unfold setup_failed, mirror_loop_returns in *;
    destruct (decide (length argv < 4)%nat); try tauto; try done; cbv zeta;
    destruct (decide ((leader_setup argv w).1 = -1)); try tauto; try done;
    destruct ((follower_setup argv w).1.1); try tauto; try done;
    destruct (track_led_brightness _ _ _ _).1; try tauto; try done.
  all: try (destruct Hs as [?|[?|?]]; done).
Qed.

(** *** Order of the followers *)

Lemma wp_add_leds_order (names : list string) (group : led_group) (w : world) :
  wf_group group →
  wp (add_leds names group) w (λ res evs _,
    res.1 = true →
    (opens evs).*1 = led_brightness_path <$> names
    ∧ members res.2 = members group ++ (opens evs).*2).
Proof.
  revert group w.
  induction names as [|led_name names IH]; intros group w Hwf; simpl.
  - apply wp_ret. intros _. by rewrite app_nil_r.
  - apply wp_bind. eapply wp_mono; [apply wp_add_led_by_name|]. cbv beta.
    intros res evs w1 [w1' _|fd w1' _ _ _ _|fd w1' Hfd _ Hroom _]; simpl.
    + apply wp_bind, wp_emit, wp_ret. done.
    + apply wp_bind, wp_emit, wp_ret. done.
    + eapply wp_mono; [apply IH; by apply wf_with_led|]. cbv beta.
      intros res' evs' _ Hres Hadded. destruct (Hres Hadded) as [Hpaths Hmem].
      rewrite decide_True by done. simpl. split.
      * f_equal. exact Hpaths.
      * rewrite Hmem, members_with_led by (rewrite Hwf; lia).
        by rewrite <- app_assoc.
Qed.

Lemma after_iterations_S (k : nat) (fd : Z) (group : led_group) (w : world) :
  after_iterations (S k) fd group w
  = track_iteration fd group (after_iterations k fd group w).
Proof.
  revert w. induction k as [|k IH]; intros w; [done|].
  change (after_iterations (S (S k)) fd group w)
    with (after_iterations (S k) fd group (track_iteration fd group w)).
  by rewrite IH.
Qed.

Lemma wp_track_iteration (fd : Z) (group : led_group) (w : world) :
  let v := to_int (rd_buf (env_read env (trace w) fd)) in
  ∃ evs, trace (track_iteration fd group w) = trace w ++ evs
         ∧ fd_ops evs = fan_out_ops (members group) v.
Proof.
  intros v. unfold track_iteration, sys_read.
  destruct (update_led_group_spec group v
    {| open_fds := open_fds w;
       trace := trace w ++ [ERead fd (rd_ret (env_read env (trace w) fd)) v] |})
    as (evs & Htr & _ & Hops & _).
  exists (ERead fd (rd_ret (env_read env (trace w) fd)) v :: evs).
  split; [|done]. fold v. rewrite Htr. simpl. by rewrite <- app_assoc.
Qed.

Lemma fan_out_ops_int (fds : list Z) (v : Z) :
  - 2 ^ 31 ≤ v < 2 ^ 31 →
  fan_out_ops fds v
  = fds ≫= λ fd, [OpLseek fd 0 SEEK_SET; OpWrite fd (Text (pretty v +:+ LF))].
Proof. intros Hv. unfold fan_out_ops. by rewrite brightness_text_int. Qed.

(** The calls of an add to a full group. *)
Lemma add_to_full_group_trace (group : led_group) (led_name : string)
    (w : world) :
  (MAX_LEDS_IN_GROUP ≤ count group)%nat →
  let path := led_brightness_path led_name in
  let fd := lowest_free (open_fds w) in
  trace (add_led_by_name_to_led_group group led_name w).2
  = trace w ++
    (if env_open env (trace w) path O_WRONLY
     then [EOpen path O_WRONLY fd; EClose fd 0]
     else [EOpen path O_WRONLY (-1)]).
Proof.
  intros Hfull path fd.
  unfold add_led_by_name_to_led_group, mbind, M_bind, bind, sys_open.
  fold path. destruct (env_open env (trace w) path O_WRONLY); simpl; [|done].
  fold fd. assert (0 ≤ fd) as Hfd by apply lowest_free_nonneg.
  rewrite decide_False by lia. rewrite add_led_by_fd_full by done. simpl.
  rewrite decide_True by done. simpl.
  rewrite decide_True by set_solver. by rewrite <- app_assoc.
Qed.

(** *** A pass of the loop within its run *)

(** One pass, written out: the [read], then the events of the fan-out of
    what it stored. *)
Lemma track_iteration_trace (fd : Z) (group : led_group) (w : world) :
  let r := (sys_read fd w).1.1 in
  let v := (sys_read fd w).1.2 in
  let w1 := (sys_read fd w).2 in
  let w2 := (update_led_group group v w1).2 in
  track_iteration fd group w = w2
  ∧ trace w2 = trace w ++ ERead fd r v :: events_since w1 w2.
Proof.
  intros r v w1 w2. split; [done|].
  unfold w2. rewrite (wp_extends _ _ _ (update_led_group_spec group v w1)).
  fold w2. unfold w1 at 1. simpl. by rewrite <- app_assoc.
Qed.

(** A run of the loop that is allowed more than [n] reads makes its
    [n + 1]-th [read] when none of the [read]s before it failed. *)
Lemma track_makes_read (n fuel : nat) (fd : Z) (group : led_group)
    (w : world) :
  (n < fuel)%nat →
  (∀ j, (j < n)%nat → ¬ read_fails fd (after_iterations j fd group w)) →
  let wn := after_iterations n fd group w in
  ∃ rest,
    trace (track_led_brightness fuel fd group w).2
    = trace wn ++ ERead fd (sys_read fd wn).1.1 (sys_read fd wn).1.2 :: rest.
Proof.
  revert fuel w. induction n as [|n IH]; intros [|fuel] w Hn Hbefore;
    try lia; cbv zeta; rewrite track_step.
  - destruct (decide (read_fails fd w)) as [Hf|Hf]; cbn [fst snd].
    + eexists. unfold track_stopped. simpl. by rewrite <- app_assoc.
    + destruct (track_iteration_trace fd group w) as [-> Htr].
      rewrite (wp_extends _ _ _ (wp_track fuel fd group _)), Htr.
      simpl. rewrite <- app_assoc. simpl. eauto.
  - rewrite decide_False by (apply (Hbefore 0%nat); lia).
    apply IH; [lia|]. intros j Hj. apply (Hbefore (S j)). lia.
Qed.

(** A run of the loop contains every pass whose [read], and the [read]s
    before it, did not fail. *)
Lemma track_makes_pass (k fuel : nat) (fd : Z) (group : led_group)
    (w : world) :
  (k < fuel)%nat →
  (∀ j, (j ≤ k)%nat → ¬ read_fails fd (after_iterations j fd group w)) →
  ∃ rest,
    trace (track_led_brightness fuel fd group w).2
    = trace (after_iterations (S k) fd group w) ++ rest.
Proof.
  revert fuel w. induction k as [|k IH]; intros [|fuel] w Hk Hok;
    try lia; rewrite track_step.
  - rewrite decide_False by (apply (Hok 0%nat); lia).
    rewrite (wp_extends _ _ _ (wp_track fuel fd group _)). simpl. eauto.
  - rewrite decide_False by (apply (Hok 0%nat); lia).
    apply IH; [lia|]. intros j Hj. apply (Hok (S j)). lia.
Qed.

(** The worlds after the passes lie on one trace. *)
Lemma after_iterations_extends (n : nat) (fd : Z) (group : led_group)
    (w : world) :
  ∃ before, trace (after_iterations n fd group w) = trace w ++ before.
Proof.
  revert w. induction n as [|n IH]; intros w.
  - exists []. simpl. by rewrite app_nil_r.
  - destruct (track_iteration_trace fd group w) as [Heq Htr].
    destruct (IH (track_iteration fd group w)) as [before Hbefore].
    simpl. rewrite Hbefore, Heq, Htr, <- app_assoc. eauto.
Qed.

(** A pass whose [read] did not fail, within the run of the loop: the
    [read], the events of the fan-out of what it stored, and, when the
    loop is allowed another [read], that [read]. *)
Lemma track_pass_in_run (k fuel : nat) (fd : Z) (group : led_group)
    (w : world) :
  (k < fuel)%nat →
  (∀ j, (j ≤ k)%nat → ¬ read_fails fd (after_iterations j fd group w)) →
  let wk := after_iterations k fd group w in
  let rd := env_read env (trace wk) fd in
  let v := to_int (rd_buf rd) in
  let w1 := (sys_read fd wk).2 in
  let w2 := (update_led_group group v w1).2 in
  let rd' := env_read env (trace (after_iterations (S k) fd group w)) fd in
  ∃ rest,
    trace (track_led_brightness fuel fd group w).2
    = trace wk ++ ERead fd (rd_ret rd) v :: events_since w1 w2 ++ rest
    ∧ ((S k < fuel)%nat →
       ∃ rest', rest = ERead fd (rd_ret rd') (to_int (rd_buf rd')) :: rest').
Proof.
  intros Hk Hok wk rd v w1 w2 rd'.
  destruct (track_iteration_trace fd group wk) as [Heq Htr].
  assert (trace (after_iterations (S k) fd group w)
          = trace wk ++ ERead fd (rd_ret rd) v :: events_since w1 w2)
    as Hpass.
  { rewrite after_iterations_S. fold wk. rewrite Heq. exact Htr. }
  destruct (decide (S k < fuel)%nat) as [Hnext|Hlast].
  - destruct (track_makes_read (S k) fuel fd group w Hnext) as [rest' Hrun].
    { intros j Hj. apply Hok. lia. }
    exists (ERead fd (rd_ret rd') (to_int (rd_buf rd')) :: rest').
    split; [|eauto]. rewrite Hrun, Hpass, <- app_assoc. done.
  - destruct (track_makes_pass k fuel fd group w Hk Hok) as [rest Hrun].
    exists rest. split; [|done]. rewrite Hrun, Hpass, <- app_assoc. done.
Qed.

(** The same pass with the events of the fan-out written out: one block
    for every member. *)
Lemma track_pass_blocks (k fuel : nat) (fd : Z) (group : led_group)
    (w : world) :
  (k < fuel)%nat →
  (∀ j, (j ≤ k)%nat → ¬ read_fails fd (after_iterations j fd group w)) →
  let wk := after_iterations k fd group w in
  let rd := env_read env (trace wk) fd in
  let v := to_int (rd_buf rd) in
  ∃ rs rest,
    length rs = length (members group)
    ∧ trace (after_iterations (S k) fd group w)
      = trace wk ++ ERead fd (rd_ret rd) v ::
        mjoin (zip_with (λ m r, update_led_events m v r) (members group) rs)
    ∧ trace (track_led_brightness fuel fd group w).2
      = trace (after_iterations (S k) fd group w) ++ rest
    ∧ write_failures_reported
        (mjoin (zip_with (λ m r, update_led_events m v r) (members group) rs))
      = true.
Proof.
  intros Hk Hok wk rd v.
  destruct (track_makes_pass k fuel fd group w Hk Hok) as [rest Hrun].
  destruct (track_iteration_trace fd group wk) as [Heq Htr].
  change (sys_read fd wk).1.1 with (rd_ret rd) in Htr.
  change (sys_read fd wk).1.2 with v in Heq, Htr.
  set (w1 := (sys_read fd wk).2) in *.
  destruct (wp_elim _ _ _ (update_leds_blocks (members group) v w1))
    as (rs & Hlen & Hblocks).
  pose proof (wp_elim _ _ _ (update_led_group_spec group v w1))
    as (_ & _ & Hreported & _).
  unfold update_led_group in Htr, Hreported.
  rewrite Hblocks in Htr, Hreported.
  exists rs, rest. split_and!; [done| |done|done].
  rewrite after_iterations_S. fold wk. rewrite Heq. exact Htr.
Qed.

(** The code after [done] adds to the trace. *)
Lemma close_fds_extends (fds : list Z) (w : world) :
  wp (close_fds fds) w (λ _ _ _, True).
Proof.
  revert w. induction fds as [|fd fds IH]; intros w; simpl.
  - by apply wp_ret.
  - apply wp_bind, wp_sys_close. intros r w1 _ _ _.
    eapply wp_mono; [apply IH|]. done.
Qed.

Lemma main_done_extends (fd : Z) (group : led_group) (exit_code : Z)
    (w : world) :
  wp (main_done fd group exit_code) w (λ _ _ _, True).
Proof.
  unfold main_done. apply wp_bind.
  assert (∀ w1, wp (close_led_group_leds group ≫= λ _, mret exit_code) w1
                  (λ _ _ _, True)) as Hrest.
  { intros w1. apply wp_bind. eapply wp_mono; [apply close_fds_extends|].
    cbv beta. intros _ _ w2 _. by apply wp_ret. }
  destruct (decide (0 ≤ fd)).
  - apply wp_bind, wp_sys_close. intros r w1 _ _ _. apply wp_ret.
    eapply wp_mono; [apply Hrest|]. done.
  - apply wp_ret. eapply wp_mono; [apply Hrest|]. done.
Qed.

(** ** The claims *)

(** C1.  The [k]-th pass of the loop, when its [read] and the [read]s
    before it did not fail: the run of the loop contains that [read],
    delivering [v], directly followed by the calls of
    [update_led_group group v], the fan-out of the same [v] over the whole
    group; and in these calls every member of the group, in turn, is
    sought to offset 0 and written the decimal text of [v] followed by a
    line feed. *)
Theorem propagation_of_read_values (fuel k : nat) (fd : Z) (group : led_group)
    (w : world) :
  (k < fuel)%nat →
  (∀ j, (j ≤ k)%nat → ¬ read_fails fd (after_iterations j fd group w)) →
  let wk := after_iterations k fd group w in
  let rd := env_read env (trace wk) fd in
  let v := to_int (rd_buf rd) in
  let w1 := (sys_read fd wk).2 in
  let fan_out := events_since w1 (update_led_group group v w1).2 in
  (∃ before rest,
      trace wk = trace w ++ before
      ∧ trace (track_led_brightness fuel fd group w).2
        = trace w ++ before ++ ERead fd (rd_ret rd) v :: fan_out ++ rest)
  ∧ fd_ops fan_out
    = members group ≫= λ m,
        [OpLseek m 0 SEEK_SET; OpWrite m (Text (pretty v +:+ LF))].
Proof.
  intros Hk Hok wk rd v w1 fan_out. split.
  - destruct (after_iterations_extends k fd group w) as [before Hbefore].
    destruct (track_pass_in_run k fuel fd group w Hk Hok) as (rest & Hrun & _).
    exists before, rest. split; [done|].
    rewrite (app_assoc (trace w) before), <- Hbefore. exact Hrun.
  - rewrite <- fan_out_ops_int by apply to_int_range.
    apply (wp_elim _ _ _ (update_led_group_spec group v w1)).
Qed.

(** C2, as the code has it.  Adding an LED by name to a group that
    already holds [MAX_LEDS_IN_GROUP] members fails and leaves the group
    and the descriptor table as they were, but the capacity is checked
    after the [open]: the attribute file is opened first, and when that
    succeeds the fresh descriptor is closed again before the function
    returns. *)
Theorem full_group_add_opens_then_closes (group : led_group)
    (led_name : string) (w : world) :
  (MAX_LEDS_IN_GROUP ≤ count group)%nat →
  let path := led_brightness_path led_name in
  let fd := lowest_free (open_fds w) in
  let res := add_led_by_name_to_led_group group led_name w in
  res.1 = (false, group)
  ∧ open_fds res.2 = open_fds w
  ∧ events_since w res.2
    = if env_open env (trace w) path O_WRONLY
      then [EOpen path O_WRONLY fd; EClose fd 0]
      else [EOpen path O_WRONLY (-1)].
Proof.
  intros Hfull path fd res.
  pose proof (wp_elim _ _ _ (wp_add_led_by_name group led_name w)) as Hout.
  fold res path in Hout.
  pose proof (add_to_full_group_trace group led_name w Hfull) as Htr.
  cbv zeta in Htr. fold res path fd in Htr.
  rewrite (events_since_app _ _ _ Htr).
  inversion Hout; [done|done|lia].
Qed.

(** C3.  [main] returns exactly when the setup fails or the mirror loop
    is left, and whenever it returns, on every path, the events it added
    open and close descriptors in pairs: each descriptor a successful
    [open] delivered is closed exactly once, no other descriptor is
    closed, and the descriptor table is the one [main] started with. *)
Theorem handles_closed_exactly_once (fuel : nat) (argv : list string)
    (w : world) :
  let res := main fuel argv w in
  (is_Some res.1 ↔ setup_failed argv w ∨ mirror_loop_returns fuel argv w)
  ∧ (is_Some res.1 →
     closed_exactly_once (events_since w res.2) ∧ open_fds res.2 = open_fds w).
Proof.
  intros res. split.
  - unfold res. rewrite main_exit_code.
    destruct (decide (setup_failed argv w));
      [|destruct (decide (mirror_loop_returns fuel argv w))];
      split; eauto; try tauto.
    intros [? Hnone]. done.
  - intros Hret. by apply (wp_elim _ _ _ (wp_main fuel argv w)).
Qed.

(** C4, as the code has it.  The mirror loop is left exactly when a
    [read] returns -1.  A [read] that returns anything else, 0 for the end
    of the stream included, keeps it running: the content of [brightness]
    is fanned out to every member as it is, whatever its value, and the
    next [read] follows. *)
Theorem mirror_loop_stops_on_read_error_only (fuel : nat) (fd : Z)
    (group : led_group) (w : world) :
  ((track_led_brightness fuel fd group w).1 = true
   ↔ ∃ k, (k < fuel)%nat ∧ read_fails fd (after_iterations k fd group w))
  ∧ ((∀ j, (j < fuel)%nat → ¬ read_fails fd (after_iterations j fd group w)) →
     track_led_brightness fuel fd group w
     = (false, after_iterations fuel fd group w))
  ∧ (∀ k, let wk := after_iterations k fd group w in
          let v := to_int (rd_buf (env_read env (trace wk) fd)) in
          ¬ read_fails fd wk →
          fd_ops (events_since wk (after_iterations (S k) fd group w))
          = members group ≫= λ m,
              [OpLseek m 0 SEEK_SET; OpWrite m (Text (pretty v +:+ LF))]).
Proof.
  split_and!.
  - apply track_returns.
  - intros Hnone.
    destruct (track_result fuel fd group w)
      as [(k & Hk & Hfail & _)|[_ Heq]]; [|done].
    by destruct (Hnone k Hk).
  - intros k wk v _. rewrite after_iterations_S. fold wk.
    destruct (wp_track_iteration fd group wk) as (evs & Htr & Hops).
    rewrite (events_since_app _ _ _ Htr), Hops.
    apply fan_out_ops_int, to_int_range.
Qed.

(** C5.  The [k]-th pass of the loop, when its [read] and the [read]s
    before it did not fail, and whatever the [write]s of its fan-out
    return: the run of the loop contains, after that [read], one block
    for every member of the group, in order, each made of the seek, the
    [write], and the message of [perror] exactly when the [write]
    returned a negative value; the block of the next member follows.  The
    loop is not left there: when it is allowed another [read] that [read]
    comes next, and unless it fails the value it delivers is fanned out
    in the same way; and when the loop returns it does so at a later
    [read] that failed. *)
Theorem fan_out_is_best_effort (fuel k : nat) (fd : Z) (group : led_group)
    (w : world) :
  (k < fuel)%nat →
  (∀ j, (j ≤ k)%nat → ¬ read_fails fd (after_iterations j fd group w)) →
  let wk := after_iterations k fd group w in
  let rd := env_read env (trace wk) fd in
  let v := to_int (rd_buf rd) in
  let wk' := after_iterations (S k) fd group w in
  let rd' := env_read env (trace wk') fd in
  let v' := to_int (rd_buf rd') in
  let blocks v rs :=
    mjoin (zip_with (λ m r, update_led_events m v r) (members group) rs) in
  (∃ rs rest,
      length rs = length (members group)
      ∧ trace (track_led_brightness fuel fd group w).2
        = trace wk ++ ERead fd (rd_ret rd) v :: blocks v rs ++ rest
      ∧ write_failures_reported (blocks v rs) = true
      ∧ ((S k < fuel)%nat →
         ∃ rest',
           rest = ERead fd (rd_ret rd') v' :: rest'
           ∧ (¬ read_fails fd wk' →
              ∃ rs' rest'',
                length rs' = length (members group)
                ∧ rest' = blocks v' rs' ++ rest'')))
  ∧ ((track_led_brightness fuel fd group w).1 = true →
     ∃ k', (k < k' < fuel)%nat
           ∧ read_fails fd (after_iterations k' fd group w)).
Proof.
  intros Hk Hok wk rd v wk' rd' v' blocks. split.
  - destruct (track_pass_blocks k fuel fd group w Hk Hok)
      as (rs & rest & Hlen & Hpass & Hrun & Hreported).
    fold wk rd v wk' in Hpass, Hrun, Hreported.
    exists rs, rest. split_and!; [done| |done|].
    { rewrite Hrun, Hpass, <- app_assoc. done. }
    intros Hnext.
    destruct (track_makes_read (S k) fuel fd group w Hnext) as [rest' Hread].
    { intros j Hj. apply Hok. lia. }
    fold wk' in Hread.
    change (sys_read fd wk').1.1 with (rd_ret rd') in Hread.
    change (sys_read fd wk').1.2 with v' in Hread.
    exists rest'. split.
    + rewrite Hrun in Hread. by apply app_inv_head in Hread.
    + intros Hgoes.
      destruct (track_pass_blocks (S k) fuel fd group w Hnext)
        as (rs' & rest'' & Hlen' & Hpass' & Hrun' & _).
      { intros j Hj. destruct (decide (j = S k)) as [->|]; [done|].
        apply Hok. lia. }
      fold wk' rd' v' in Hpass', Hrun'. exists rs', rest''. split; [done|].
      rewrite Hpass', <- app_assoc, Hread in Hrun'.
      apply app_inv_head in Hrun'. by injection Hrun'.
  - intros Hret. apply track_returns in Hret as (k' & Hk' & Hfail).
    exists k'. split; [|done].
    destruct (decide (k' ≤ k)%nat) as [Hle|Hgt]; [|lia].
    by destruct (Hok k' Hle).
Qed.

(** C6, as the code has it.  [main] wants the name of the leader and of
    at least two LEDs: with fewer than four entries in [argv] (the
    program name and fewer than three arguments) it prints the usage
    line on the standard error stream and returns [EXIT_FAILURE] without
    any other call; with four or more entries its first call is the
    [open] of [/dev/uleds]. *)
Theorem usage_unless_leader_and_two_leds (fuel : nat) (argv : list string)
    (w : world) :
  ((length argv < 4)%nat →
   main fuel argv w
   = (Some EXIT_FAILURE,
      {| open_fds := open_fds w;
         trace := trace w ++ [EStderr (usage (argv !!! 0%nat))] |}))
  ∧ ((4 ≤ length argv)%nat →
     ∃ r rest,
       events_since w (main fuel argv w).2
       = EOpen "/dev/uleds" O_RDWR r :: rest).
Proof.
  split.
  - intros Hargc. rewrite main_cases. by rewrite decide_True by done.
  - intros Hargc. by apply (wp_elim _ _ _ (wp_main fuel argv w)).
Qed.

(** C7, as the code has it.  The exit code of [main] is decided by the
    setup and by the [read]s of the loop.  After every failure of the
    setup (missing arguments, no leader, an LED that cannot be added)
    [main] returns [EXIT_FAILURE], which is not 0.  It returns 0 exactly
    when the setup succeeded and a [read] on the leader returned -1, and
    it is still in the loop exactly when the setup succeeded and no
    [read] has failed.  Before it returns 0 it has reported the failed
    [read] with [perror]: the code knows no other way out of the loop. *)
Theorem exit_code_decided_by_setup_and_loop (fuel : nat) (argv : list string)
    (w : world) :
  let leader := (leader_setup argv w).1 in
  let group := (follower_setup argv w).1.2 in
  let w0 := (follower_setup argv w).2 in
  let code := (main fuel argv w).1 in
  EXIT_FAILURE ≠ 0
  ∧ (setup_failed argv w → code = Some EXIT_FAILURE)
  ∧ (code = Some 0
     ↔ ¬ setup_failed argv w
       ∧ ∃ k, (k < fuel)%nat
              ∧ read_fails leader (after_iterations k leader group w0))
  ∧ (code = None
     ↔ ¬ setup_failed argv w
       ∧ ∀ j, (j < fuel)%nat →
              ¬ read_fails leader (after_iterations j leader group w0))
  ∧ (code = Some 0 →
     ∃ k v rest,
       (k < fuel)%nat
       ∧ trace (main fuel argv w).2
         = trace (after_iterations k leader group w0)
           ++ ERead leader (-1) v
              :: EPerror "Failed to read brightness from /dev/uleds" :: rest).
Proof.
  intros leader group w0 code.
  pose proof (main_exit_code fuel argv w) as Hcode. fold code in Hcode.
  pose proof (track_returns fuel leader group w0) as Hret.
  assert (mirror_loop_returns fuel argv w
          ↔ ∃ k, (k < fuel)%nat
                 ∧ read_fails leader (after_iterations k leader group w0))
    as Hloop by exact Hret.
  split_and!.
  - done.
  - intros Hs. by rewrite Hcode, decide_True by done.
  - rewrite Hcode.
    destruct (decide (setup_failed argv w)) as [Hs|Hs];
      [|destruct (decide (mirror_loop_returns fuel argv w)) as [Hm|Hm]].
    + split; [done|]. by intros [? _].
    + split; [|done]. intros _. split; [done|]. by apply Hloop.
    + split; [done|]. intros [_ Hk]. by apply Hloop in Hk.
  - rewrite Hcode.
    destruct (decide (setup_failed argv w)) as [Hs|Hs];
      [|destruct (decide (mirror_loop_returns fuel argv w)) as [Hm|Hm]].
    + split; [done|]. by intros [? _].
    + split; [done|]. intros [_ Hnone].
      apply Hloop in Hm as (k & Hk & Hfail). by destruct (Hnone k Hk).
    + split; [|done]. intros _. split; [done|]. intros j Hj Hfail.
      apply Hm, Hloop. eauto.
  - intros Hzero. rewrite Hcode in Hzero.
    destruct (decide (setup_failed argv w)) as [Hs|Hs]; [done|].
    destruct (decide (mirror_loop_returns fuel argv w)) as [Hm|Hm]; [|done].
    unfold setup_failed in Hs. unfold mirror_loop_returns in Hm.
    fold leader group w0 in Hm.
    rewrite main_cases. rewrite decide_False by tauto. cbv zeta.
    rewrite decide_False by tauto.
    destruct ((follower_setup argv w).1.1); [|tauto].
    fold leader group w0.
    destruct (track_result fuel leader group w0)
      as [(k & Hk & Hfail & _ & Heq)|[_ Heq]];
      rewrite Heq in Hm |- *; [|done].
    cbn [fst snd].
    pose proof (wp_extends _ _ _
      (main_done_extends leader group EXIT_SUCCESS
         (track_stopped leader (after_iterations k leader group w0))))
      as Hdone.
    eexists k, _, _. split; [done|]. rewrite Hdone.
    unfold track_stopped. simpl. unfold read_fails in Hfail. rewrite Hfail.
    rewrite <- !app_assoc. done.
Qed.

(** C8, as the code has it.  [close_led_group_leds] does not record what
    it closed: [count] and [led_fds] are not touched.  On an empty group
    it makes no call and leaves the world as it is.  Called again
    directly after a first call, it calls [close] once more on every
    member; each of these calls fails and the descriptor table stays as
    the first call left it. *)
Theorem close_all_twice (group : led_group) (w : world) :
  (count group = 0%nat → close_led_group_leds group w = (tt, w))
  ∧ (let w1 := (close_led_group_leds group w).2 in
     let w2 := (close_led_group_leds group w1).2 in
     open_fds w2 = open_fds w1
     ∧ events_since w1 w2 = (λ fd, EClose fd (-1)) <$> members group).
Proof.
  split.
  - intros Hcount. unfold close_led_group_leds, members. by rewrite Hcount.
  - intros w1 w2.
    destruct (wp_elim _ _ _ (wp_close_fds (members group) w)) as [Hfds1 _].
    fold (close_led_group_leds group) in Hfds1. fold w1 in Hfds1.
    assert (∀ fd, fd ∈ members group → fd ∉ open_fds w1) as Hclosed.
    { intros fd Hin. rewrite Hfds1. set_solver. }
    apply (wp_elim _ _ _ (wp_close_fds_closed (members group) w1 Hclosed)).
Qed.

(** C9.  A successful [add_led_by_fd_to_led_group] stores the descriptor
    at index [count] and leaves the slots below as they are; the loop of
    [main] adds the LEDs in the order of their names, so the members of
    the group are the descriptors of the attribute files of the names,
    in that order; and a fan-out seeks and writes the members by
    ascending index. *)
Theorem followers_in_command_line_order (names : list string)
    (group : led_group) (w : world) :
  wf_group group →
  (∀ fd, (count group < MAX_LEDS_IN_GROUP)%nat →
     ∃ group', add_led_by_fd_to_led_group group fd = (true, group')
       ∧ count group' = S (count group)
       ∧ led_fds group' !! count group = Some fd
       ∧ ∀ i, (i < count group)%nat → led_fds group' !! i = led_fds group !! i)
  ∧ (let res := add_leds names group w in
     res.1.1 = true →
     (opens (events_since w res.2)).*1
     = led_brightness_path <$> names
     ∧ members res.1.2 = members group ++ (opens (events_since w res.2)).*2)
  ∧ (∀ v w0,
       fd_ops (events_since w0 (update_led_group group v w0).2)
       = members group ≫= λ m,
           [OpLseek m 0 SEEK_SET; OpWrite m (Text (brightness_text v))]).
Proof.
  intros Hwf. split_and!.
  - intros fd Hroom. exists (with_led group fd).
    rewrite add_led_by_fd_room by done. split_and!; [done|done| |].
    + simpl. apply list_lookup_insert_eq. rewrite Hwf. done.
    + intros i Hi. simpl. apply list_lookup_insert_ne. lia.
  - intros res. by apply (wp_elim _ _ _ (wp_add_leds_order names group w Hwf)).
  - intros v w0. apply (wp_elim _ _ _ (update_led_group_spec group v w0)).
Qed.

(** C10.  An add that fails leaks no descriptor: the group is unchanged,
    the descriptor table is the one before the call, and every
    descriptor opened during the call was closed in it.  In particular,
    when the [open] succeeds and the group is full, the call consists of
    that [open] and the [close] of its descriptor. *)
Theorem failed_add_closes_descriptor (group : led_group) (led_name : string)
    (w : world) :
  let path := led_brightness_path led_name in
  let res := add_led_by_name_to_led_group group led_name w in
  (res.1.1 = false →
   res.1.2 = group
   ∧ open_fds res.2 = open_fds w
   ∧ closed_exactly_once (events_since w res.2))
  ∧ (env_open env (trace w) path O_WRONLY = true →
     (MAX_LEDS_IN_GROUP ≤ count group)%nat →
     res.1.1 = false
     ∧ events_since w res.2
       = [EOpen path O_WRONLY (lowest_free (open_fds w));
          EClose (lowest_free (open_fds w)) 0]).
Proof.
  intros path res. split.
  - pose proof (wp_elim _ _ _ (wp_add_led_by_name group led_name w)) as Hout.
    fold res path in Hout. intros Hfailed.
    inversion Hout as [w' Hfds Hres Hevs Hw'
                      |fd w' Hfd Hfresh Hfull Hfds Hres Hevs Hw'
                      |fd w' Hfd Hfresh Hroom Hfds Hres Hevs Hw'];
      rewrite <- Hres in *; [done| |done].
    split_and!; [done|done|]. unfold closed_exactly_once. simpl.
    rewrite decide_True by done. rewrite decide_False by set_solver.
    rewrite decide_True by set_solver. f_equal. set_solver.
  - intros Hopen Hfull.
    pose proof (add_to_full_group_trace group led_name w Hfull) as Htr.
    cbv zeta in Htr. fold res path in Htr. rewrite Hopen in Htr.
    rewrite (events_since_app _ _ _ Htr). split; [|done].
    unfold res, add_led_by_name_to_led_group, mbind, M_bind, bind, sys_open.
    fold path. rewrite Hopen. simpl.
    assert (0 ≤ lowest_free (open_fds w)) as Hfd by apply lowest_free_nonneg.
    rewrite decide_False by lia. rewrite add_led_by_fd_full by done. simpl.
    by rewrite decide_True by done.
Qed.

(** ** Further properties of the code *)

(** *** Text and paths *)

Lemma substring_length (n : nat) (s : string) :
  String.length (String.substring 0 n s) = (n `min` String.length s)%nat.
Proof.
  revert n. induction s as [|c s IH]; intros [|n]; simpl; try done.
  by rewrite IH.
Qed.

Lemma substring_prefix (n : nat) (s : string) :
  ∃ rest, s = String.substring 0 n s +:+ rest.
Proof.
  revert n. induction s as [|c s IH]; intros [|n]; simpl.
  - by exists "".
  - by exists "".
  - by exists (String c s).
  - destruct (IH n) as [rest Hrest]. exists rest.
    change (String c s = String c (String.substring 0 n s +:+ rest)).
    by f_equal.
Qed.

Lemma string_app_inj_r (t s1 s2 : string) :
  s1 +:+ t = s2 +:+ t → s1 = s2.
Proof.
  revert s2. induction s1 as [|c s1 IH]; intros [|c' s2] Heq.
  - done.
  - apply (f_equal String.length) in Heq.
    rewrite (string_length_app (String c' s2) t) in Heq.
    change (String.length t = S (String.length s2 + String.length t)) in Heq.
    exfalso. lia.
  - apply (f_equal String.length) in Heq.
    rewrite (string_length_app (String c s1) t) in Heq.
    change (S (String.length s1 + String.length t) = String.length t) in Heq.
    exfalso. lia.
  - change (String c (s1 +:+ t) = String c' (s2 +:+ t)) in Heq.
    injection Heq as -> Heq. f_equal. by apply IH.
Qed.

(** X1.  The copy made by the [strlcpy] of the source into a buffer of
    [len > 0] bytes is the longest prefix of the source that leaves room
    for the terminator: a source that is too long is cut, not refused,
    and a source that fits is copied whole. *)
Theorem strlcpy_cuts_to_the_buffer (src : string) (len : nat) :
  (0 < len)%nat →
  String.length (strlcpy src len) = (String.length src `min` (len - 1))%nat
  ∧ (String.length (strlcpy src len) < len)%nat
  ∧ (∃ rest, src = strlcpy src len +:+ rest)
  ∧ ((String.length src < len)%nat → strlcpy src len = src).
Proof.
  intros Hlen. unfold strlcpy. rewrite substring_length. split_and!.
  - lia.
  - lia.
  - apply substring_prefix.
  - intros Hfits. apply substring_all. lia.
Qed.

(** X2.  The text [update_led] writes for an [int] determines the value:
    it is at most 12 characters, ends in a line feed, and two values
    with the same text are equal. *)
Theorem brightness_text_determines_value (v1 v2 : Z) :
  - 2 ^ 31 ≤ v1 < 2 ^ 31 → - 2 ^ 31 ≤ v2 < 2 ^ 31 →
  (String.length (brightness_text v1) ≤ 12)%nat
  ∧ (∃ digits, brightness_text v1 = digits +:+ LF)
  ∧ (brightness_text v1 = brightness_text v2 ↔ v1 = v2).
Proof.
  intros Hv1 Hv2. rewrite !brightness_text_int by done. split_and!.
  - rewrite string_length_app. pose proof (pretty_int_length v1 Hv1).
    simpl. lia.
  - by exists (pretty v1).
  - split; [|by intros ->].
    intros Heq. apply string_app_inj_r in Heq. by apply (inj pretty).
Qed.

(** The path without the bound of the buffer. *)
Lemma led_brightness_path_fits (led_name : string) :
  (String.length led_name ≤ LED_MAX_NAME_SIZE + 2)%nat →
  led_brightness_path led_name
  = "/sys/class/leds/" +:+ led_name +:+ "/brightness".
Proof.
  intros Hfits. unfold led_brightness_path, snprintf. apply substring_all.
  rewrite !string_length_app. simpl. lia.
Qed.

(** X3.  The path of a brightness attribute is never longer than its
    buffer allows, [LED_MAX_NAME_SIZE + 29] characters, whatever the
    name: it is [/sys/class/leds/<name>/brightness] cut to that length.
    It is the whole of that text exactly for the names of at most
    [LED_MAX_NAME_SIZE + 2] characters, and two such names with the same
    path are the same name. *)
Theorem led_brightness_path_within_buffer (name1 name2 : string) :
  String.length (led_brightness_path name1)
  = ((String.length name1 + 27) `min` (LED_MAX_NAME_SIZE + 29))%nat
  ∧ (String.length (led_brightness_path name1) ≤ LED_MAX_NAME_SIZE + 29)%nat
  ∧ (∃ rest, "/sys/class/leds/" +:+ name1 +:+ "/brightness"
             = led_brightness_path name1 +:+ rest)
  ∧ (led_brightness_path name1 = "/sys/class/leds/" +:+ name1 +:+ "/brightness"
     ↔ (String.length name1 ≤ LED_MAX_NAME_SIZE + 2)%nat)
  ∧ ((String.length name1 ≤ LED_MAX_NAME_SIZE + 2)%nat →
     (String.length name2 ≤ LED_MAX_NAME_SIZE + 2)%nat →
     (led_brightness_path name1 = led_brightness_path name2 ↔ name1 = name2)).
Proof.
  assert (String.length (led_brightness_path name1)
          = ((String.length name1 + 27) `min` (LED_MAX_NAME_SIZE + 29))%nat)
    as Hlen.
  { unfold led_brightness_path, snprintf.
    rewrite substring_length, !string_length_app. simpl. lia. }
  split_and!.
  - exact Hlen.
  - rewrite Hlen. lia.
  - apply substring_prefix.
  - split; [|apply led_brightness_path_fits].
    intros Heq. rewrite Heq in Hlen.
    rewrite !string_length_app in Hlen. simpl in Hlen. lia.
  - intros Hfits1 Hfits2. split; [|by intros ->].
    rewrite !led_brightness_path_fits by done. intros Heq.
    apply (inj (String.app "/sys/class/leds/")) in Heq.
    by apply string_app_inj_r in Heq.
Qed.

(** *** The leader *)

Lemma wp_create_outcome (led_name : string) (w : world) :
  wp (create_led_group_leader led_name) w (leader_outcome led_name w).
Proof.
  unfold create_led_group_leader.
  apply wp_bind, wp_sys_open.
  intros fd w1 [[-> Hfds]|(Hfd & Hfresh & Hfds)] _.
  - simpl. apply wp_bind, wp_emit, wp_ret. by constructor.
  - destruct (decide (fd < 0)); [lia|].
    apply wp_bind, wp_sys_write. intros r w2 _ Hfds2 _.
    destruct (decide (r = -1)) as [->|Hr].
    + apply wp_bind, wp_emit, wp_bind, wp_sys_close. intros r' w3 Hr' Hfds3 _.
      apply wp_ret. simpl in *.
      rewrite Hfds2, Hfds, decide_True in Hr' by set_solver. subst r'.
      constructor; try done. rewrite Hfds3, Hfds2, Hfds. set_solver.
    + apply wp_ret. simpl. constructor; try done. congruence.
Qed.

(** The three runs of [create_led_group_leader], by what the environment
    answers to the [open] and to the [write]. *)
Lemma create_led_group_leader_run (led_name : string) (w : world) :
  let fd := lowest_free (open_fds w) in
  let description := leader_description led_name in
  let r := env_write env (trace w ++ [EOpen "/dev/uleds" O_RDWR fd]) fd
             description in
  trace (create_led_group_leader led_name w).2
  = trace w ++
    (if env_open env (trace w) "/dev/uleds" O_RDWR then
       if decide (r = -1) then
         [EOpen "/dev/uleds" O_RDWR fd; EWrite fd description (-1);
          EPerror "Failed to create LED group leader"; EClose fd 0]
       else [EOpen "/dev/uleds" O_RDWR fd; EWrite fd description r]
     else [EOpen "/dev/uleds" O_RDWR (-1);
           EPerror "Failed to create LED group leader"])
  ∧ (create_led_group_leader led_name w).1
    = if env_open env (trace w) "/dev/uleds" O_RDWR then
        if decide (r = -1) then -1 else fd
      else -1.
Proof.
  intros fd description r.
  unfold create_led_group_leader, mbind, M_bind, bind, sys_open.
  destruct (env_open env (trace w) "/dev/uleds" O_RDWR); simpl.
  - fold fd. assert (0 ≤ fd) as Hfd by apply lowest_free_nonneg.
    rewrite decide_False by lia. simpl.
    fold (leader_description led_name). fold description. fold r.
    destruct (decide (r = -1)) as [Hr|Hr]; simpl.
    + rewrite decide_True by set_solver.
      rewrite Hr, <- !app_assoc. done.
    + by rewrite <- !app_assoc.
  - by rewrite <- !app_assoc.
Qed.

(** X4.  [create_led_group_leader] returns -1 or a descriptor that was not
    open before.  When it returns -1 the descriptor table is as before
    and every descriptor it opened is closed again.  When it returns a
    descriptor, that descriptor is open, and the call consisted of the
    [open] of [/dev/uleds] and one [write] on it of the device
    description: the name cut to [LED_MAX_NAME_SIZE - 1] characters and
    the maximal brightness 100.  Which of these it is follows from the
    answers to the two calls: -1 with a message when the [open] fails;
    -1 with a message and the [close] of the descriptor when the [write]
    returns -1; the descriptor, and nothing more, when the [write]
    returns anything else, 0 and the other negative values included. *)
Theorem leader_is_registered_or_nothing_is_left (led_name : string)
    (w : world) :
  let res := create_led_group_leader led_name w in
  let evs := events_since w res.2 in
  let fd := lowest_free (open_fds w) in
  let description :=
    UledsUserDev {| name := strlcpy led_name LED_MAX_NAME_SIZE;
                    dev_max_brightness := 100 |} in
  let can_open := env_open env (trace w) "/dev/uleds" O_RDWR in
  let r := env_write env (trace w ++ [EOpen "/dev/uleds" O_RDWR fd]) fd
             description in
  (res.1 = -1 ∨ (0 ≤ res.1 ∧ res.1 ∉ open_fds w))
  ∧ (res.1 = -1 →
     open_fds res.2 = open_fds w ∧ closed_exactly_once evs)
  ∧ (res.1 ≠ -1 →
     open_fds res.2 = {[res.1]} ∪ open_fds w
     ∧ ∃ r, r ≠ -1
         ∧ evs = [EOpen "/dev/uleds" O_RDWR res.1;
                  EWrite res.1
                    (UledsUserDev
                       {| name := strlcpy led_name LED_MAX_NAME_SIZE;
                          dev_max_brightness := 100 |}) r])
  ∧ trace res.2 = trace w ++ evs
  ∧ (can_open = false →
     res.1 = -1
     ∧ evs = [EOpen "/dev/uleds" O_RDWR (-1);
              EPerror "Failed to create LED group leader"])
  ∧ (can_open = true → r = -1 →
     res.1 = -1
     ∧ evs = [EOpen "/dev/uleds" O_RDWR fd; EWrite fd description (-1);
              EPerror "Failed to create LED group leader"; EClose fd 0])
  ∧ (can_open = true → r ≠ -1 →
     res.1 = fd
     ∧ evs = [EOpen "/dev/uleds" O_RDWR fd; EWrite fd description r]).
Proof.
  intros res evs fd description can_open r.
  pose proof (wp_elim _ _ _ (wp_create_outcome led_name w)) as Hout.
  fold res evs in Hout.
  destruct (create_led_group_leader_run led_name w) as [Htrace Hres].
  fold res fd can_open in Htrace, Hres.
  change (leader_description led_name) with description in Htrace, Hres.
  fold r in Htrace, Hres.
  assert (∀ l, trace res.2 = trace w ++ l → evs = l) as Hevs.
  { intros l Hl. by apply events_since_app. }
  split_and!.
  - inversion Hout as [w' Hfds Hr1 Hev Hw'
                      |fd1 w' Hfd Hfresh Hfds Hr1 Hev Hw'
                      |fd1 r1 w' Hfd Hfresh Hr Hfds Hr1 Hev Hw'];
      [by left|by left|by right].
  - intros Hfail.
    inversion Hout as [w' Hfds Hr1 Hev Hw'
                      |fd1 w' Hfd Hfresh Hfds Hr1 Hev Hw'
                      |fd1 r1 w' Hfd Hfresh Hr Hfds Hr1 Hev Hw'].
    + split; [done|]. by unfold closed_exactly_once.
    + split; [done|]. unfold closed_exactly_once. simpl.
      rewrite decide_True by done. rewrite decide_False by set_solver.
      rewrite decide_True by set_solver. f_equal. set_solver.
    + lia.
  - intros Hok.
    inversion Hout as [w' Hfds Hr1 Hev Hw'
                      |fd1 w' Hfd Hfresh Hfds Hr1 Hev Hw'
                      |fd1 r1 w' Hfd Hfresh Hr Hfds Hr1 Hev Hw'];
      [congruence|congruence|].
    split; [done|]. by exists r1.
  - rewrite Htrace. f_equal. symmetry. by apply Hevs.
  - intros Hopen. rewrite Hopen in Htrace, Hres. split; [done|].
    by apply Hevs.
  - intros Hopen Hr. rewrite Hopen in Htrace, Hres.
    rewrite decide_True in Htrace by done.
    rewrite decide_True in Hres by done. split; [done|].
    by apply Hevs.
  - intros Hopen Hr. rewrite Hopen in Htrace, Hres.
    rewrite decide_False in Htrace by done.
    rewrite decide_False in Hres by done. split; [done|].
    by apply Hevs.
Qed.

(** X5.  When the leader cannot be created, [main] prints one more
    message and returns [EXIT_FAILURE]: [/dev/uleds] is the only path it
    has tried to open, and the descriptor table is as before. *)
Theorem no_leader_no_followers (fuel : nat) (argv : list string) (w : world) :
  (4 ≤ length argv)%nat → (leader_setup argv w).1 = -1 →
  let res := main fuel argv w in
  res.1 = Some EXIT_FAILURE
  ∧ open_paths (events_since w res.2) = ["/dev/uleds"]
  ∧ last (events_since w res.2) = Some (EPerror "Failed to open /dev/uleds")
  ∧ open_fds res.2 = open_fds w.
Proof.
  intros Hargc Hleader res. unfold res. rewrite main_cases.
  rewrite decide_False by lia. cbv zeta. rewrite decide_True by done.
  pose proof (wp_elim _ _ _ (wp_create_outcome (argv !!! 1%nat) w)) as Hout.
  pose proof (wp_extends _ _ _ (wp_create_outcome (argv !!! 1%nat) w)) as Htr.
  fold (leader_setup argv w) in Hout, Htr.
  assert (trace (perror "Failed to open /dev/uleds" (leader_setup argv w).2).2
          = trace w ++ events_since w (leader_setup argv w).2
              ++ [EPerror "Failed to open /dev/uleds"]) as Hevs.
  { simpl. by rewrite Htr, <- app_assoc. }
  cbn [fst snd]. rewrite (events_since_app _ _ _ Hevs).
  split; [done|].
  inversion Hout as [w' Hfds Hres Hevs1 Hw'
                    |fd w' Hfd Hfresh Hfds Hres Hevs1 Hw'
                    |fd r w' Hfd Hfresh Hr Hfds Hres Hevs1 Hw'];
    [done|done|lia].
Qed.

(** *** Filling the group *)

Lemma open_paths_app (evs1 evs2 : list event) :
  open_paths (evs1 ++ evs2) = open_paths evs1 ++ open_paths evs2.
Proof. apply bind_app. Qed.

Lemma wp_add_leds_count (names : list string) (group : led_group) (w : world) :
  (count group ≤ MAX_LEDS_IN_GROUP)%nat →
  wp (add_leds names group) w (λ res _ _,
    (count res.2 ≤ MAX_LEDS_IN_GROUP)%nat
    ∧ (res.1 = true → count res.2 = (count group + length names)%nat)).
Proof.
  revert group w.
  induction names as [|led_name names IH]; intros group w Hcount; simpl.
  - apply wp_ret. split; [done|]. intros _. simpl. lia.
  - apply wp_bind. eapply wp_mono; [apply wp_add_led_by_name|]. cbv beta.
    intros res evs w1 [w1' _|fd w1' _ _ _ _|fd w1' _ _ Hroom _]; simpl.
    + apply wp_bind, wp_emit, wp_ret. done.
    + apply wp_bind, wp_emit, wp_ret. done.
    + eapply wp_mono; [apply IH; simpl; lia|]. cbv beta.
      intros res' _ _ [Hle Hsum]. split; [done|].
      intros Hadded. rewrite (Hsum Hadded). simpl. lia.
Qed.

(** X6.  The loop that adds the LEDs never lets the group grow beyond
    [MAX_LEDS_IN_GROUP]: it succeeds only when every name was added,
    one member per name, and so never when the names are more than the
    free slots, whatever the operating system answers. *)
Theorem group_never_exceeds_capacity (names : list string)
    (group : led_group) (w : world) :
  (count group ≤ MAX_LEDS_IN_GROUP)%nat →
  let res := add_leds names group w in
  (count res.1.2 ≤ MAX_LEDS_IN_GROUP)%nat
  ∧ (res.1.1 = true → count res.1.2 = (count group + length names)%nat)
  ∧ ((MAX_LEDS_IN_GROUP < count group + length names)%nat →
     res.1.1 = false).
Proof.
  intros Hcount res.
  destruct (wp_elim _ _ _ (wp_add_leds_count names group w Hcount))
    as [Hle Hsum].
  fold res in Hle, Hsum. split_and!; [done|done|].
  intros Hmany. destruct (res.1.1) eqn:Hadded; [|done].
  specialize (Hsum eq_refl). lia.
Qed.

(** X7.  With more than [MAX_LEDS_IN_GROUP] names of LEDs on the command
    line [main] returns [EXIT_FAILURE], whatever the operating system
    answers and however long the loop would be allowed to run. *)
Theorem too_many_leds_fail (fuel : nat) (argv : list string) (w : world) :
  (MAX_LEDS_IN_GROUP + 2 < length argv)%nat →
  (main fuel argv w).1 = Some EXIT_FAILURE.
Proof.
  intros Hmany. rewrite main_exit_code. rewrite decide_True; [done|].
  right. destruct (decide ((leader_setup argv w).1 = -1)); [by left|right].
  assert (count empty_led_group ≤ MAX_LEDS_IN_GROUP)%nat as Hcount
    by (simpl; lia).
  destruct (wp_elim _ _ _ (wp_add_leds_count (drop 2 argv) empty_led_group
              (leader_setup argv w).2 Hcount)) as [Hle Hsum].
  fold (follower_setup argv w) in Hle, Hsum.
  destruct ((follower_setup argv w).1.1); [|done].
  specialize (Hsum eq_refl). rewrite length_drop in Hsum. simpl in Hsum.
  unfold MAX_LEDS_IN_GROUP in *. lia.
Qed.

Lemma wp_add_leds_first_failure (names : list string) (group : led_group)
    (w : world) :
  wp (add_leds names group) w (λ res evs _,
    res.1 = false →
    ∃ before led_name after,
      names = before ++ led_name :: after
      ∧ open_paths evs = led_brightness_path <$> (before ++ [led_name])
      ∧ last evs
        = Some (EStderr ("failed to add LED " +:+ led_name +:+ " to group"
                         +:+ LF))
      ∧ count res.2 = (count group + length before)%nat).
Proof.
  revert group w.
  induction names as [|led_name names IH]; intros group w; simpl.
  - by apply wp_ret.
  - apply wp_bind. eapply wp_mono; [apply wp_add_led_by_name|]. cbv beta.
    intros res evs w1 [w1' _|fd w1' _ _ _ _|fd w1' _ _ _ _]; simpl.
    + apply wp_bind, wp_emit, wp_ret. intros _.
      exists [], led_name, names. simpl. split_and!; [done|done|done|lia].
    + apply wp_bind, wp_emit, wp_ret. intros _.
      exists [], led_name, names. simpl. split_and!; [done|done|done|lia].
    + eapply wp_mono; [apply IH|]. cbv beta.
      intros res' evs' _ Hres Hfailed.
      destruct (Hres Hfailed)
        as (before & name & after & -> & Hpaths & Hlast & Hcnt).
      exists (led_name :: before), name, after.
      split_and!; [done| | |].
      * unfold open_paths in *. simpl. by rewrite Hpaths.
      * destruct evs' as [|e evs']; [done|]. exact Hlast.
      * rewrite Hcnt. simpl. lia.
Qed.

(** X8.  When the loop that adds the LEDs fails, it has stopped at the
    first name that could not be added: the attribute files of that
    name and of the names before it are the only ones it has tried to
    open, in that order, the group has gained one member for each name
    before it, and its last act is the message that names the LED. *)
Theorem first_failure_stops_the_adding (names : list string)
    (group : led_group) (w : world) :
  let res := add_leds names group w in
  res.1.1 = false →
  ∃ before led_name after,
    names = before ++ led_name :: after
    ∧ open_paths (events_since w res.2)
      = led_brightness_path <$> (before ++ [led_name])
    ∧ last (events_since w res.2)
      = Some (EStderr ("failed to add LED " +:+ led_name +:+ " to group"
                       +:+ LF))
    ∧ count res.1.2 = (count group + length before)%nat.
Proof.
  intros res. apply (wp_elim _ _ _ (wp_add_leds_first_failure names group w)).
Qed.

(** *** The mirror loop *)

Lemma update_leds_loop_events (leader : Z) (fds all : list Z) (v : Z)
    (w : world) :
  fds ⊆ all →
  wp (update_leds fds v) w (λ _ evs _, Forall (loop_event leader all) evs).
Proof.
  revert w. induction fds as [|fd fds IH]; intros w Hsub; simpl.
  - by apply wp_ret.
  - apply wp_bind, wp_update_led. intros r w1 _ _.
    eapply wp_mono; [apply IH; set_solver|]. cbv beta.
    intros _ evs _ Hevs. apply Forall_app. split; [|done].
    assert (fd ∈ all) as Hin by set_solver.
    unfold update_led_events.
    destruct (decide (r < 0)); repeat constructor; done.
Qed.

Lemma wp_track_loop_events (fuel : nat) (fd : Z) (group : led_group)
    (w : world) :
  wp (track_led_brightness fuel fd group) w (λ _ evs _,
    Forall (loop_event fd (members group)) evs).
Proof.
  revert w. induction fuel as [|fuel IH]; intros w; simpl.
  - by apply wp_ret.
  - apply wp_bind, wp_sys_read. intros r v w1 _ _ _ _.
    destruct (decide (r = -1)).
    + apply wp_bind, wp_emit, wp_ret. simpl. by repeat constructor.
    + apply wp_bind.
      eapply wp_mono; [by apply (update_leds_loop_events fd)|]. cbv beta.
      intros _ evs1 w2 Hevs1.
      eapply wp_mono; [apply IH|]. cbv beta.
      intros _ evs2 _ Hevs2. simpl. constructor; [done|].
      apply Forall_app. done.
Qed.


Lemma after_iterations_ops (n : nat) (fd : Z) (group : led_group) (w : world) :
  ∃ evs, trace (after_iterations n fd group w) = trace w ++ evs
         ∧ fd_ops evs
           = read_values n fd group w ≫= fan_out_ops (members group).
Proof.
  revert w. induction n as [|n IH]; intros w.
  - exists []. simpl. by rewrite app_nil_r.
  - destruct (wp_track_iteration fd group w) as (evs1 & Htr1 & Hops1).
    destruct (IH (track_iteration fd group w)) as (evs2 & Htr2 & Hops2).
    exists (evs1 ++ evs2). split.
    + simpl. by rewrite Htr2, Htr1, app_assoc.
    + unfold fd_ops in *. rewrite bind_app. simpl.
      by rewrite Hops1, Hops2.
Qed.

(** X10.  When the loop is left at its [k + 1]-th [read], the seeks and
    writes of the whole run are the fan-outs of the [k] values read
    before, in the order in which they were read: every value reaches
    every member once, none is skipped and none is repeated. *)
Theorem values_reach_members_in_order (fuel k : nat) (fd : Z)
    (group : led_group) (w : world) :
  (k < fuel)%nat →
  read_fails fd (after_iterations k fd group w) →
  (∀ j, (j < k)%nat → ¬ read_fails fd (after_iterations j fd group w)) →
  let res := track_led_brightness fuel fd group w in
  res.1 = true
  ∧ length (read_values k fd group w) = k
  ∧ fd_ops (events_since w res.2)
    = read_values k fd group w ≫= fan_out_ops (members group).
Proof.
  intros Hk Hfail Hbefore res.
  assert (res = (true, track_stopped fd (after_iterations k fd group w)))
    as Hres.
  { destruct (track_result fuel fd group w)
      as [(k' & Hk' & Hfail' & Hbefore' & Heq)|[Hnone _]].
    - destruct (Nat.lt_trichotomy k k') as [Hlt|[<-|Hgt]]; [|done|].
      + by destruct (Hbefore' k Hlt).
      + by destruct (Hbefore k' Hgt).
    - by destruct (Hnone k Hk). }
  rewrite Hres. cbn [fst snd]. split_and!; [done| |].
  - clear. revert w. induction k as [|k IH]; intros w; simpl; [done|].
    by rewrite IH.
  - destruct (after_iterations_ops k fd group w) as (evs & Htr & Hops).
    set (wk := after_iterations k fd group w) in *.
    assert (trace (track_stopped fd wk)
            = trace w ++ evs ++
              [ERead fd (rd_ret (env_read env (trace wk) fd))
                 (to_int (rd_buf (env_read env (trace wk) fd)));
               EPerror "Failed to read brightness from /dev/uleds"]) as Hevs.
    { unfold track_stopped. simpl. rewrite Htr. by rewrite <- !app_assoc. }
    rewrite (events_since_app _ _ _ Hevs).
    unfold fd_ops in *. rewrite bind_app. simpl. by rewrite app_nil_r.
Qed.



(** *** Closing *)

Lemma wp_close_fds_events (fds : list Z) (w : world) :
  wp (close_fds fds) w (λ _ evs w',
    open_fds w' = open_fds w ∖ list_to_set fds
    ∧ (∃ rs, length rs = length fds ∧ evs = zip_with EClose fds rs)
    ∧ (NoDup fds → list_to_set fds ⊆ open_fds w →
       evs = (λ fd, EClose fd 0) <$> fds)).
Proof.
  revert w. induction fds as [|fd fds IH]; intros w; simpl.
  - apply wp_ret. split_and!; [set_solver|by exists []|done].
  - apply wp_bind, wp_sys_close. intros r w1 Hr Hfds1 _.
    eapply wp_mono; [apply IH|]. cbv beta.
    intros _ evs w' (Hfds & (rs & Hlen & Hevs) & Hopen). split_and!.
    + rewrite Hfds, Hfds1. set_solver.
    + exists (r :: rs). simpl. by rewrite Hlen, Hevs.
    + intros Hnd Hsub. apply NoDup_cons in Hnd as [Hnotin Hnd].
      rewrite decide_True in Hr by set_solver. subst r. simpl. f_equal.
      apply Hopen; [done|]. rewrite Hfds1. set_solver.
Qed.

(** X11.  [close_led_group_leds] calls [close] on the members of the
    group in the order of their index, once each, and makes no other
    call; afterwards no member is in the descriptor table.  When the
    members are distinct and open, every one of these calls returns 0. *)
Theorem close_all_closes_members_in_order (group : led_group) (w : world) :
  let w' := (close_led_group_leds group w).2 in
  open_fds w' = open_fds w ∖ list_to_set (members group)
  ∧ (∃ rs, length rs = length (members group)
           ∧ events_since w w' = zip_with EClose (members group) rs)
  ∧ (NoDup (members group) → list_to_set (members group) ⊆ open_fds w →
     events_since w w' = (λ fd, EClose fd 0) <$> members group).
Proof.
  intros w'. apply (wp_elim _ _ _ (wp_close_fds_events (members group) w)).
Qed.

Lemma wp_main_done_events (fd : Z) (group : led_group) (exit_code : Z)
    (w : world) (base held : gset Z) :
  0 ≤ fd → holds base held w → group_held fd group held →
  wp (main_done fd group exit_code) w (λ _ evs w',
    evs = EClose fd 0 :: ((λ m, EClose m 0) <$> members group)
    ∧ open_fds w' = base).
Proof.
  intros Hfd [Hfds Hdisj] (Hheld & Hnd & Hwf). unfold main_done.
  rewrite decide_True by done. apply NoDup_cons in Hnd as [Hl Hnd].
  apply wp_bind, wp_bind, wp_sys_close. intros r w1 Hr Hfds1 _.
  rewrite decide_True in Hr by set_solver. subst r.
  apply wp_ret, wp_bind.
  eapply wp_mono; [apply wp_close_fds_events|]. cbv beta.
  intros _ evs w2 (Hfds2 & _ & Hevs). apply wp_ret. simpl.
  rewrite app_nil_r. split.
  - f_equal. apply Hevs; [done|]. rewrite Hfds1, Hfds. set_solver.
  - rewrite Hfds2, Hfds1, Hfds. set_solver.
Qed.

(** *** The whole of [main] *)

(** After a leader was created, whatever became of the LEDs: the program
    holds the leader and the members of the group, and nothing else. *)
Lemma setup_holds (argv : list string) (w : world) :
  (leader_setup argv w).1 ≠ -1 →
  0 ≤ (leader_setup argv w).1
  ∧ ∃ held, holds (open_fds w) held (follower_setup argv w).2
            ∧ group_held (leader_setup argv w).1
                (follower_setup argv w).1.2 held.
Proof.
  intros Hleader.
  pose proof (wp_elim _ _ _ (wp_create_outcome (argv !!! 1%nat) w)) as Hout.
  fold (leader_setup argv w) in Hout.
  inversion Hout as [w' Hfds Hres Hevs Hw'
                    |fd w' Hfd Hfresh Hfds Hres Hevs Hw'
                    |fd r w' Hfd Hfresh Hr Hfds Hres Hevs Hw'];
    [by destruct Hleader|by destruct Hleader|].
  split; [done|].
  assert (holds (open_fds w) {[fd]} (leader_setup argv w).2) as Hw1.
  { split; [rewrite Hfds|]; set_solver. }
  destruct (wp_elim _ _ _ (wp_add_leds_held (drop 2 argv) empty_led_group
              (leader_setup argv w).2 (open_fds w) {[fd]} fd Hw1
              (group_held_empty fd))) as (held & _ & Hw2 & Hg).
  exists held. rewrite <- Hres. by split.
Qed.

(** X12.  Once the leader is created, the leader and the members of the
    group are descriptors that differ from each other, that are open
    when the adding of the LEDs is over, and that were not open when
    [main] started: the group never holds a descriptor twice, never the
    leader's and never one of the descriptors the process came with. *)
Theorem group_holds_distinct_open_descriptors (argv : list string)
    (w : world) :
  (leader_setup argv w).1 ≠ -1 →
  let fd := (leader_setup argv w).1 in
  let group := (follower_setup argv w).1.2 in
  let w2 := (follower_setup argv w).2 in
  NoDup (fd :: members group)
  ∧ (count group ≤ MAX_LEDS_IN_GROUP)%nat
  ∧ ∀ m, m ∈ fd :: members group → m ∈ open_fds w2 ∧ m ∉ open_fds w.
Proof.
  intros Hleader fd group w2.
  destruct (setup_holds argv w Hleader)
    as (_ & held & [Hfds Hdisj] & Hheld & Hnd & _).
  fold fd group w2 in Hfds, Hheld, Hnd. split_and!; [done| |].
  - assert (count empty_led_group ≤ MAX_LEDS_IN_GROUP)%nat as Hcount
      by (simpl; lia).
    apply (wp_elim _ _ _ (wp_add_leds_count (drop 2 argv) empty_led_group
                            (leader_setup argv w).2 Hcount)).
  - intros m Hm. rewrite Hfds.
    assert (m ∈ held) as Hin by (rewrite Hheld; set_solver).
    set_solver.
Qed.

Lemma leader_outcome_events (led_name : string) (w w' : world) (fd : Z)
    (evs : list event) :
  leader_outcome led_name w fd evs w' →
  Forall close_succeeded evs
  ∧ Forall no_brightness_io evs
  ∧ (fd = -1 → Exists is_diagnostic evs).
Proof.
  intros [w1 _|fd1 w1 _ _ _|fd1 r w1 Hfd _ _ _].
  - split_and!; [by repeat constructor|by repeat constructor|].
    intros _. by apply Exists_cons_tl, Exists_cons_hd.
  - split_and!; [by repeat constructor|by repeat constructor|].
    intros _. do 2 apply Exists_cons_tl. by apply Exists_cons_hd.
  - split_and!; [by repeat constructor|by repeat constructor|lia].
Qed.

Lemma wp_add_leds_events (names : list string) (group : led_group)
    (w : world) :
  wp (add_leds names group) w (λ res evs _,
    Forall close_succeeded evs
    ∧ Forall no_brightness_io evs
    ∧ (res.1 = false → Exists is_diagnostic evs)).
Proof.
  revert group w.
  induction names as [|led_name names IH]; intros group w; simpl.
  - by apply wp_ret.
  - apply wp_bind. eapply wp_mono; [apply wp_add_led_by_name|]. cbv beta.
    intros res evs w1 [w1' _|fd w1' _ _ _ _|fd w1' _ _ _ _]; simpl.
    + apply wp_bind, wp_emit, wp_ret.
      split_and!; [by repeat constructor|by repeat constructor|].
      intros _. by apply Exists_cons_tl, Exists_cons_hd.
    + apply wp_bind, wp_emit, wp_ret.
      split_and!; [by repeat constructor|by repeat constructor|].
      intros _. do 2 apply Exists_cons_tl. by apply Exists_cons_hd.
    + eapply wp_mono; [apply IH|]. cbv beta.
      intros res' evs' _ (Hcl & Hio & Hdiag).
      split_and!; [by constructor|by constructor|].
      intros Hfailed. apply Exists_cons_tl. by apply Hdiag.
Qed.

Lemma closes_no_brightness_io (fds rs : list Z) :
  Forall no_brightness_io (zip_with EClose fds rs).
Proof.
  revert rs. induction fds as [|fd fds IH]; intros [|r rs]; simpl;
    constructor; [done|apply IH].
Qed.

Lemma wp_main_done_no_io (fd : Z) (group : led_group) (exit_code : Z)
    (w : world) :
  wp (main_done fd group exit_code) w (λ code evs _,
    code = exit_code ∧ Forall no_brightness_io evs).
Proof.
  assert (∀ w0, wp (close_led_group_leds group ≫= λ _, mret exit_code) w0
            (λ code evs _, code = exit_code ∧ Forall no_brightness_io evs))
    as Hrest.
  { intros w0. apply wp_bind.
    eapply wp_mono; [apply wp_close_fds_events|]. cbv beta.
    intros _ evs w2 (_ & (rs & _ & ->) & _). apply wp_ret.
    rewrite app_nil_r. split; [done|]. apply closes_no_brightness_io. }
  unfold main_done. apply wp_bind. destruct (decide (0 ≤ fd)).
  - apply wp_bind, wp_sys_close. intros r w1 _ _ _. apply wp_ret.
    rewrite app_nil_r.
    eapply wp_mono; [apply Hrest|]. cbv beta. intros code evs _ [-> Hevs].
    split; [done|]. simpl. by constructor.
  - apply wp_ret. eapply wp_mono; [apply Hrest|]. by cbv beta.
Qed.

Lemma loop_event_close_succeeded (leader : Z) (fds : list Z)
    (evs : list event) :
  Forall (loop_event leader fds) evs → Forall close_succeeded evs.
Proof.
  intros Hloop. eapply Forall_impl; [exact Hloop|].
  intros [] H; done.
Qed.

Lemma wp_main_closes (fuel : nat) (argv : list string) (w : world) :
  wp (main fuel argv) w (λ _ evs _, Forall close_succeeded evs).
Proof.
  unfold main. destruct (decide (length argv < 4)%nat).
  { apply wp_bind, wp_emit, wp_fmap, wp_main_done_nothing_held.
    by repeat constructor. }
  apply wp_bind.
  eapply wp_mono; [apply wp_create_outcome|]. cbv beta.
  intros fd evs1 w1 Hout.
  destruct (leader_outcome_events _ _ _ _ _ Hout) as (Hcl1 & _ & _).
  destruct (decide (fd = -1)) as [->|Hleader].
  { apply wp_bind, wp_emit, wp_fmap, wp_main_done_nothing_held.
    rewrite app_nil_r. apply Forall_app. by repeat constructor. }
  assert (0 ≤ fd ∧ holds (open_fds w) {[fd]} w1) as [Hfd Hw1].
  { inversion Hout as [w' Hfds Hres Hevs Hw'
                      |fd' w' Hfd Hfresh Hfds Hres Hevs Hw'
                      |fd' r w' Hfd Hfresh Hr Hfds Hres Hevs Hw'];
      [done|done|].
    split; [done|]. split; [rewrite Hfds|]; set_solver. }
  apply wp_bind.
  eapply wp_mono;
    [apply (wp_and _ _ _ _
              (wp_add_leds_held (drop 2 argv) _ _ _ _ fd Hw1
                 (group_held_empty fd))
              (wp_add_leds_events (drop 2 argv) empty_led_group w1))|].
  cbv beta.
  intros [added group] evs2 w2 [(held & _ & Hw2 & Hg) (Hcl2 & _ & _)].
  simpl in Hg.
  destruct added; simpl.
  - apply wp_bind.
    eapply wp_mono;
      [apply (wp_and _ _ _ _ (wp_track fuel fd group w2)
                (wp_track_loop_events fuel fd group w2))|].
    cbv beta. intros returned evs3 w3 [[Hfds3 _] Hloop].
    apply loop_event_close_succeeded in Hloop.
    assert (holds (open_fds w) held w3) as Hw3.
    { destruct Hw2. split; [congruence|done]. }
    destruct returned.
    + apply wp_fmap.
      eapply wp_mono;
        [by apply (wp_main_done_events fd group _ _ (open_fds w) held)|].
      cbv beta. intros _ evs4 _ [-> _].
      rewrite !Forall_app. split_and!; try done.
      constructor; [done|]. apply Forall_fmap, Forall_true. done.
    + apply wp_ret. rewrite app_nil_r, !Forall_app. done.
  - apply wp_fmap.
    eapply wp_mono;
      [by apply (wp_main_done_events fd group _ _ (open_fds w) held)|].
    cbv beta. intros _ evs4 _ [-> _].
    rewrite !Forall_app. split_and!; try done.
    constructor; [done|]. apply Forall_fmap, Forall_true. done.
Qed.

(** X13.  No [close] that [main] makes ever fails, on any path and
    whatever the operating system answers: [main] closes only
    descriptors that are open, and none of them twice. *)
Theorem main_never_closes_in_vain (fuel : nat) (argv : list string)
    (w : world) :
  Forall close_succeeded (events_since w (main fuel argv w).2).
Proof. apply (wp_elim _ _ _ (wp_main_closes fuel argv w)). Qed.

Lemma wp_main_failure (fuel : nat) (argv : list string) (w : world) :
  wp (main fuel argv) w (λ res evs _,
    res = Some EXIT_FAILURE →
    Forall no_brightness_io evs ∧ Exists is_diagnostic evs).
Proof.
  unfold main. destruct (decide (length argv < 4)%nat).
  { apply wp_bind, wp_emit, wp_fmap, wp_main_done_nothing_held.
    intros _. split; [by repeat constructor|by apply Exists_cons_hd]. }
  apply wp_bind.
  eapply wp_mono; [apply wp_create_outcome|]. cbv beta.
  intros fd evs1 w1 Hout.
  destruct (leader_outcome_events _ _ _ _ _ Hout) as (_ & Hio1 & Hdiag1).
  destruct (decide (fd = -1)) as [->|Hleader].
  { apply wp_bind, wp_emit, wp_fmap, wp_main_done_nothing_held.
    intros _. rewrite app_nil_r. split.
    - apply Forall_app. by repeat constructor.
    - apply Exists_app. left. by apply Hdiag1. }
  apply wp_bind.
  eapply wp_mono; [apply wp_add_leds_events|]. cbv beta.
  intros [added group] evs2 w2 (_ & Hio2 & Hdiag2).
  destruct added; simpl.
  - apply wp_bind. eapply wp_mono; [apply wp_track|]. cbv beta.
    intros returned evs3 w3 _. destruct returned.
    + apply wp_fmap. eapply wp_mono; [apply wp_main_done_no_io|]. cbv beta.
      intros code evs4 _ [-> _]. done.
    + by apply wp_ret.
  - apply wp_fmap. eapply wp_mono; [apply wp_main_done_no_io|]. cbv beta.
    intros code evs4 _ [-> Hio4] _. split.
    + rewrite !Forall_app. done.
    + apply Exists_app. right. apply Exists_app. left. by apply Hdiag2.
Qed.

(** X14.  [main] does not fail in silence: whenever it returns
    [EXIT_FAILURE] it has printed a message with [perror] or on the
    standard error stream. *)
Theorem failure_is_reported (fuel : nat) (argv : list string) (w : world) :
  (main fuel argv w).1 = Some EXIT_FAILURE →
  Exists is_diagnostic (events_since w (main fuel argv w).2).
Proof.
  intros Hcode. by apply (wp_elim _ _ _ (wp_main_failure fuel argv w)).
Qed.

(** X15.  A run of [main] that returns [EXIT_FAILURE] has mirrored
    nothing: it has not read from the leader, and it has not sought or
    written the brightness of any LED, not even of those it had already
    added when the setup failed. *)
Theorem failed_setup_touches_no_brightness (fuel : nat) (argv : list string)
    (w : world) :
  (main fuel argv w).1 = Some EXIT_FAILURE →
  Forall no_brightness_io (events_since w (main fuel argv w).2).
Proof.
  intros Hcode. by apply (wp_elim _ _ _ (wp_main_failure fuel argv w)).
Qed.

(** X16.  When [main] returns after it has created the leader, it ends
    with the [close] of the leader, followed by the [close] of every
    member of the group in the order of its index; each returns 0, and
    the descriptor table is then the one [main] started with. *)
Theorem teardown_closes_leader_then_members (fuel : nat)
    (argv : list string) (w : world) :
  (4 ≤ length argv)%nat → (leader_setup argv w).1 ≠ -1 →
  is_Some (main fuel argv w).1 →
  let fd := (leader_setup argv w).1 in
  let group := (follower_setup argv w).1.2 in
  ∃ before,
    events_since w (main fuel argv w).2
    = before ++ EClose fd 0 :: ((λ m, EClose m 0) <$> members group).
Proof.
  intros Hargc Hleader Hret fd group.
  destruct (setup_holds argv w Hleader) as (Hfd & held & Hw2 & Hg).
  fold fd group in Hfd, Hg.
  pose proof (wp_extends _ _ _ (wp_create_outcome (argv !!! 1%nat) w)) as Htr1.
  fold (leader_setup argv w) in Htr1.
  pose proof (wp_extends _ _ _ (wp_add_leds_events (drop 2 argv)
                empty_led_group (leader_setup argv w).2)) as Htr2.
  fold (follower_setup argv w) in Htr2.
  set (w2 := (follower_setup argv w).2) in *.
  pose proof (wp_extends _ _ _ (wp_track fuel fd group w2)) as Htr3.
  destruct (wp_elim _ _ _ (wp_track fuel fd group w2)) as [Hfds3 _].
  set (tracked := track_led_brightness fuel fd group w2) in *.
  assert (holds (open_fds w) held tracked.2) as Hw3.
  { destruct Hw2. split; [congruence|done]. }
  assert (∀ code w3, holds (open_fds w) held w3 →
            trace (main_done fd group code w3).2
            = trace w3 ++ EClose fd 0
                :: ((λ m, EClose m 0) <$> members group)) as Hdone.
  { intros code w3 Hw3'.
    rewrite (wp_extends _ _ _ (wp_main_done_events fd group code w3
                                 (open_fds w) held Hfd Hw3' Hg)).
    by destruct (wp_elim _ _ _ (wp_main_done_events fd group code w3
                                  (open_fds w) held Hfd Hw3' Hg)) as [-> _]. }
  revert Hret. rewrite main_cases. rewrite decide_False by lia. cbv zeta.
  fold fd. rewrite decide_False by done. fold group w2 tracked.
  destruct ((follower_setup argv w).1.1).
  - destruct (tracked.1); cbn [fst snd]; [|by intros [? ?]].
    intros _.
    exists (events_since w (leader_setup argv w).2
            ++ events_since (leader_setup argv w).2 w2
            ++ events_since w2 tracked.2).
    apply events_since_app.
    rewrite (Hdone _ _ Hw3), Htr3, Htr2, Htr1. by rewrite <- !app_assoc.
  - cbn [fst snd]. intros _.
    exists (events_since w (leader_setup argv w).2
            ++ events_since (leader_setup argv w).2 w2).
    apply events_since_app.
    rewrite (Hdone _ _ Hw2), Htr2, Htr1. by rewrite <- !app_assoc.
Qed.

End LedGroup.

(** ** The claims at concrete inputs *)

(** C1 at the second value of the leader, 75: the run contains the
    [read] of 75 and then the seek and the write of "75" and a line feed
    on both members. *)
Lemma propagation_of_read_values_witness :
  (1 < 5)%nat
  ∧ (∀ j, (j ≤ 1)%nat →
          ¬ read_fails env_ok 3 (after_iterations env_ok j 3 two_leds w_running))
  ∧ (∃ before rest,
        trace (after_iterations env_ok 1 3 two_leds w_running)
        = trace w_running ++ before
        ∧ trace (track_led_brightness env_ok 5 3 two_leds w_running).2
          = trace w_running ++ before ++
            ERead 3 4 75 ::
            [ELseek 4 0 SEEK_SET; EWrite 4 (Text ("75" +:+ LF)) 3;
             ELseek 5 0 SEEK_SET; EWrite 5 (Text ("75" +:+ LF)) 3] ++ rest)
  ∧ fd_ops [ELseek 4 0 SEEK_SET; EWrite 4 (Text ("75" +:+ LF)) 3;
            ELseek 5 0 SEEK_SET; EWrite 5 (Text ("75" +:+ LF)) 3]
    = [OpLseek 4 0 SEEK_SET; OpWrite 4 (Text ("75" +:+ LF));
       OpLseek 5 0 SEEK_SET; OpWrite 5 (Text ("75" +:+ LF))].
Proof.
  assert (1 < 5)%nat as Hk by lia.
  assert (∀ j, (j ≤ 1)%nat →
            ¬ read_fails env_ok 3
                (after_iterations env_ok j 3 two_leds w_running)) as Hok.
  { intros [|[|j]] Hj; [vm_compute; discriminate|vm_compute; discriminate|lia]. }
  split; [exact Hk|]. split; [exact Hok|].
  exact (propagation_of_read_values env_ok 5 1 3 two_leds w_running Hk Hok).
Defined.

(** The whole of that run: 42 and 75 reach both members, the third
    [read] fails. *)
Example both_values_reach_both_members :
  track_led_brightness env_ok 5 3 two_leds w_running
  = (true,
     {| open_fds := open_fds w_running;
        trace :=
          [ERead 3 4 42;
           ELseek 4 0 SEEK_SET; EWrite 4 (Text ("42" +:+ LF)) 3;
           ELseek 5 0 SEEK_SET; EWrite 5 (Text ("42" +:+ LF)) 3;
           ERead 3 4 75;
           ELseek 4 0 SEEK_SET; EWrite 4 (Text ("75" +:+ LF)) 3;
           ELseek 5 0 SEEK_SET; EWrite 5 (Text ("75" +:+ LF)) 3;
           ERead 3 (-1) 0;
           EPerror "Failed to read brightness from /dev/uleds"] |}).
Proof. vm_compute. done. Qed.

(** C2, counterexample: a full group, an attribute file that can be
    opened.  The add fails, but it has opened descriptor 8 and closed it
    again. *)
Lemma full_group_add_opens_a_handle :
  let res := add_led_by_name_to_led_group 64 env_ok four_leds "led4" w_full in
  res.1 = (false, four_leds)
  ∧ opens (events_since w_full res.2)
    = [("/sys/class/leds/led4/brightness", 8)]
  ∧ events_since w_full res.2
    = [EOpen "/sys/class/leds/led4/brightness" O_WRONLY 8; EClose 8 0].
Proof. vm_compute. done. Qed.

Lemma full_group_add_opens_then_closes_witness :
  (MAX_LEDS_IN_GROUP ≤ count four_leds)%nat
  ∧ (add_led_by_name_to_led_group 64 env_ok four_leds "led4" w_full).1
    = (false, four_leds)
  ∧ open_fds (add_led_by_name_to_led_group 64 env_ok four_leds "led4" w_full).2
    = open_fds w_full
  ∧ events_since w_full
      (add_led_by_name_to_led_group 64 env_ok four_leds "led4" w_full).2
    = [EOpen "/sys/class/leds/led4/brightness" O_WRONLY 8; EClose 8 0].
Proof.
  assert (MAX_LEDS_IN_GROUP ≤ count four_leds)%nat as Hfull
    by (vm_compute; lia).
  split; [exact Hfull|].
  exact (full_group_add_opens_then_closes 64 env_ok four_leds "led4" w_full
           Hfull).
Defined.

(** C3 at a run with two LEDs: two values are mirrored, then the [read]
    fails and [main] returns. *)
Lemma handles_closed_exactly_once_witness :
  is_Some (main 64 env_ok 5 argv_two_leds w_start).1
  ∧ closed_exactly_once
      (events_since w_start (main 64 env_ok 5 argv_two_leds w_start).2)
  ∧ open_fds (main 64 env_ok 5 argv_two_leds w_start).2 = open_fds w_start.
Proof.
  assert (is_Some (main 64 env_ok 5 argv_two_leds w_start).1) as Hret
    by (vm_compute; eauto).
  split; [exact Hret|].
  exact (proj2 (handles_closed_exactly_once 64 env_ok 5 argv_two_leds w_start)
           Hret).
Defined.

(** The paths of C3 on which the setup fails.  The leader is opened but
    not registered: it is closed in [create_led_group_leader], and not
    again at the end of [main]. *)
Example registration_failure_closes_leader :
  main 64 env_no_registration 5 argv_two_leds w_start
  = (Some 1,
     {| open_fds := open_fds w_start;
        trace :=
          [EOpen "/dev/uleds" O_RDWR 3;
           EWrite 3
             (UledsUserDev {| name := "panel"; dev_max_brightness := 100 |})
             (-1);
           EPerror "Failed to create LED group leader";
           EClose 3 0;
           EPerror "Failed to open /dev/uleds"] |}).
Proof. vm_compute. done. Qed.

(** The second LED cannot be opened: the leader and the first LED are
    closed. *)
Example second_led_failure_closes_the_rest :
  main 64 env_no_led1 5 argv_two_leds w_start
  = (Some 1,
     {| open_fds := open_fds w_start;
        trace :=
          [EOpen "/dev/uleds" O_RDWR 3;
           EWrite 3
             (UledsUserDev {| name := "panel"; dev_max_brightness := 100 |})
             3;
           EOpen "/sys/class/leds/led0/brightness" O_WRONLY 4;
           EOpen "/sys/class/leds/led1/brightness" O_WRONLY (-1);
           EStderr ("failed to add LED led1 to group" +:+ LF);
           EClose 3 0; EClose 4 0] |}).
Proof. vm_compute. done. Qed.

(** A fifth LED: its descriptor is closed by the add that fails, the
    leader and the four members at the end of [main]. *)
Example fifth_led_is_closed_at_once :
  (main 64 env_ok 5 argv_five_leds w_start).1 = Some 1
  ∧ events_since w_start (main 64 env_ok 5 argv_five_leds w_start).2
    = [EOpen "/dev/uleds" O_RDWR 3;
       EWrite 3
         (UledsUserDev {| name := "panel"; dev_max_brightness := 100 |}) 3;
       EOpen "/sys/class/leds/led0/brightness" O_WRONLY 4;
       EOpen "/sys/class/leds/led1/brightness" O_WRONLY 5;
       EOpen "/sys/class/leds/led2/brightness" O_WRONLY 6;
       EOpen "/sys/class/leds/led3/brightness" O_WRONLY 7;
       EOpen "/sys/class/leds/led4/brightness" O_WRONLY 8;
       EClose 8 0;
       EStderr ("failed to add LED led4 to group" +:+ LF);
       EClose 3 0; EClose 4 0; EClose 5 0; EClose 6 0; EClose 7 0].
Proof. vm_compute. done. Qed.

(** C4, counterexample: the leader answers two [read]s with 0, the end of
    the stream, and the third with -1.  The loop is not left at the
    first two: it fans out the content of [brightness] and reads again.
    It is left at the third. *)
Lemma end_of_stream_does_not_stop_loop :
  rd_ret (env_read env_eof (trace w_running) 3) = 0
  ∧ (track_led_brightness env_eof 2 3 two_leds w_running).1 = false
  ∧ track_led_brightness env_eof 3 3 two_leds w_running
    = (true,
       {| open_fds := open_fds w_running;
          trace :=
            [ERead 3 0 7;
             ELseek 4 0 SEEK_SET; EWrite 4 (Text ("7" +:+ LF)) 3;
             ELseek 5 0 SEEK_SET; EWrite 5 (Text ("7" +:+ LF)) 3;
             ERead 3 0 7;
             ELseek 4 0 SEEK_SET; EWrite 4 (Text ("7" +:+ LF)) 3;
             ELseek 5 0 SEEK_SET; EWrite 5 (Text ("7" +:+ LF)) 3;
             ERead 3 (-1) 0;
             EPerror "Failed to read brightness from /dev/uleds"] |}).
Proof. vm_compute. done. Qed.

(** A value above [max_brightness] is mirrored like any other. *)
Example value_above_maximum_is_mirrored :
  track_led_brightness (scripted (λ _, true) (λ _ _, 5) [full_read 1000])
    2 3 two_leds w_running
  = (true,
     {| open_fds := open_fds w_running;
        trace :=
          [ERead 3 4 1000;
           ELseek 4 0 SEEK_SET; EWrite 4 (Text ("1000" +:+ LF)) 5;
           ELseek 5 0 SEEK_SET; EWrite 5 (Text ("1000" +:+ LF)) 5;
           ERead 3 (-1) 0;
           EPerror "Failed to read brightness from /dev/uleds"] |}).
Proof. vm_compute. done. Qed.

Lemma mirror_loop_stops_on_read_error_only_witness :
  (2 < 3)%nat
  ∧ read_fails env_eof 3 (after_iterations env_eof 2 3 two_leds w_running)
  ∧ (track_led_brightness env_eof 3 3 two_leds w_running).1 = true.
Proof.
  assert (2 < 3)%nat as Hk by lia.
  assert (read_fails env_eof 3
            (after_iterations env_eof 2 3 two_leds w_running)) as Hfail
    by (vm_compute; reflexivity).
  split_and!; [exact Hk|exact Hfail|].
  apply (proj1 (mirror_loop_stops_on_read_error_only env_eof 3 3 two_leds
                  w_running)).
  exists 2%nat. split; [exact Hk|exact Hfail].
Defined.

(** C5 with an LED that cannot be written: the [write] on descriptor 4
    fails and is reported, descriptor 5 is written all the same. *)
Example failed_write_is_reported_and_skipped :
  events_since w_running (update_led_group env_bad_led two_leds 42 w_running).2
  = [ELseek 4 0 SEEK_SET; EWrite 4 (Text ("42" +:+ LF)) (-1);
     EPerror "failed to write to group LED";
     ELseek 5 0 SEEK_SET; EWrite 5 (Text ("42" +:+ LF)) 3].
Proof. vm_compute. done. Qed.

(** The loop with that LED: the failed [write]s are reported, descriptor
    5 is written, and the next value is read and fanned out. *)
Example failed_write_does_not_stop_the_loop :
  track_led_brightness env_bad_led 3 3 two_leds w_running
  = (true,
     {| open_fds := open_fds w_running;
        trace :=
          [ERead 3 4 42;
           ELseek 4 0 SEEK_SET; EWrite 4 (Text ("42" +:+ LF)) (-1);
           EPerror "failed to write to group LED";
           ELseek 5 0 SEEK_SET; EWrite 5 (Text ("42" +:+ LF)) 3;
           ERead 3 4 75;
           ELseek 4 0 SEEK_SET; EWrite 4 (Text ("75" +:+ LF)) (-1);
           EPerror "failed to write to group LED";
           ELseek 5 0 SEEK_SET; EWrite 5 (Text ("75" +:+ LF)) 3;
           ERead 3 (-1) 0;
           EPerror "Failed to read brightness from /dev/uleds"] |}).
Proof. vm_compute. done. Qed.

Lemma fan_out_is_best_effort_witness :
  (0 < 3)%nat
  ∧ (∀ j, (j ≤ 0)%nat →
          ¬ read_fails env_bad_led 3
              (after_iterations env_bad_led j 3 two_leds w_running))
  ∧ (∃ rs rest,
        length rs = length (members two_leds)
        ∧ trace (track_led_brightness env_bad_led 3 3 two_leds w_running).2
          = trace w_running ++
            ERead 3 4 42 ::
            mjoin (zip_with (λ m r, update_led_events m 42 r)
                     (members two_leds) rs) ++ rest
        ∧ write_failures_reported
            (mjoin (zip_with (λ m r, update_led_events m 42 r)
                      (members two_leds) rs)) = true
        ∧ ((1 < 3)%nat →
           ∃ rest',
             rest = ERead 3 4 75 :: rest'
             ∧ (¬ read_fails env_bad_led 3
                    (after_iterations env_bad_led 1 3 two_leds w_running) →
                ∃ rs' rest'',
                  length rs' = length (members two_leds)
                  ∧ rest'
                    = mjoin (zip_with (λ m r, update_led_events m 75 r)
                               (members two_leds) rs') ++ rest'')))
  ∧ ((track_led_brightness env_bad_led 3 3 two_leds w_running).1 = true →
     ∃ k', (0 < k' < 3)%nat
           ∧ read_fails env_bad_led 3
               (after_iterations env_bad_led k' 3 two_leds w_running)).
Proof.
  assert (0 < 3)%nat as Hk by lia.
  assert (∀ j, (j ≤ 0)%nat →
            ¬ read_fails env_bad_led 3
                (after_iterations env_bad_led j 3 two_leds w_running)) as Hok.
  { intros [|j] Hj; [vm_compute; discriminate|lia]. }
  split; [exact Hk|]. split; [exact Hok|].
  exact (fan_out_is_best_effort env_bad_led 3 0 3 two_leds w_running Hk Hok).
Defined.

(** C6, counterexample: a leader and one LED.  [main] prints the usage
    line and returns [EXIT_FAILURE]; it opens nothing. *)
Lemma one_led_is_not_enough :
  main 64 env_ok 5 argv_one_led w_start
  = (Some 1,
     {| open_fds := open_fds w_start;
        trace :=
          [EStderr ("format: led_group <group_name> <led 1> <led 2> ..."
                    +:+ LF)] |}).
Proof. vm_compute. done. Qed.

Lemma usage_unless_leader_and_two_leds_witness :
  ((length argv_one_led < 4)%nat
   ∧ main 64 env_ok 5 argv_one_led w_start
     = (Some EXIT_FAILURE,
        {| open_fds := open_fds w_start;
           trace := trace w_start
                    ++ [EStderr (usage (argv_one_led !!! 0%nat))] |}))
  ∧ ((4 ≤ length argv_two_leds)%nat
     ∧ ∃ r rest,
         events_since w_start (main 64 env_ok 5 argv_two_leds w_start).2
         = EOpen "/dev/uleds" O_RDWR r :: rest).
Proof.
  assert (length argv_one_led < 4)%nat as Hone by (vm_compute; lia).
  assert (4 ≤ length argv_two_leds)%nat as Htwo by (vm_compute; lia).
  split; (split; [done|]).
  - exact (proj1 (usage_unless_leader_and_two_leds 64 env_ok 5 argv_one_led
                    w_start) Hone).
  - exact (proj2 (usage_unless_leader_and_two_leds 64 env_ok 5 argv_two_leds
                    w_start) Htwo).
Defined.

(** C7, counterexample: the LEDs are set up and the first [read] on the
    leader fails.  [main] reports the failure, closes what it holds, and
    returns 0. *)
Lemma read_error_exits_with_success :
  main 64 env_read_error 5 argv_two_leds w_start
  = (Some 0,
     {| open_fds := open_fds w_start;
        trace :=
          [EOpen "/dev/uleds" O_RDWR 3;
           EWrite 3 (UledsUserDev {| name := "panel";
                                     dev_max_brightness := 100 |}) 3;
           EOpen "/sys/class/leds/led0/brightness" O_WRONLY 4;
           EOpen "/sys/class/leds/led1/brightness" O_WRONLY 5;
           ERead 3 (-1) 0;
           EPerror "Failed to read brightness from /dev/uleds";
           EClose 3 0; EClose 4 0; EClose 5 0] |}).
Proof. vm_compute. done. Qed.

(** C7 at two runs: without an LED that can be opened the exit code is
    [EXIT_FAILURE]; with two LEDs and a leader that fails at the third
    [read] it is 0. *)
Lemma exit_code_decided_by_setup_and_loop_witness :
  (setup_failed 64 env_no_led1 argv_two_leds w_start
   ∧ (main 64 env_no_led1 5 argv_two_leds w_start).1 = Some EXIT_FAILURE)
  ∧ (¬ setup_failed 64 env_ok argv_two_leds w_start
     ∧ (∃ k, (k < 5)%nat
             ∧ read_fails env_ok
                 (leader_setup 64 env_ok argv_two_leds w_start).1
                 (after_iterations env_ok k
                    (leader_setup 64 env_ok argv_two_leds w_start).1
                    (follower_setup 64 env_ok argv_two_leds w_start).1.2
                    (follower_setup 64 env_ok argv_two_leds w_start).2))
     ∧ (main 64 env_ok 5 argv_two_leds w_start).1 = Some 0).
Proof.
  assert (setup_failed 64 env_no_led1 argv_two_leds w_start) as Hfailed
    by (right; right; vm_compute; reflexivity).
  assert (¬ setup_failed 64 env_ok argv_two_leds w_start) as Hsetup
    by (intros [H|[H|H]]; vm_compute in H; [lia|discriminate|discriminate]).
  assert (∃ k, (k < 5)%nat
             ∧ read_fails env_ok
                 (leader_setup 64 env_ok argv_two_leds w_start).1
                 (after_iterations env_ok k
                    (leader_setup 64 env_ok argv_two_leds w_start).1
                    (follower_setup 64 env_ok argv_two_leds w_start).1.2
                    (follower_setup 64 env_ok argv_two_leds w_start).2))
    as Hread.
  { exists 2%nat. split; [lia|]. vm_compute. reflexivity. }
  split.
  - split; [exact Hfailed|].
    exact (proj1 (proj2 (exit_code_decided_by_setup_and_loop 64 env_no_led1 5
                           argv_two_leds w_start)) Hfailed).
  - split; [exact Hsetup|]. split; [exact Hread|].
    exact (proj2 (proj1 (proj2 (proj2
             (exit_code_decided_by_setup_and_loop 64 env_ok 5
                argv_two_leds w_start))))
             (conj Hsetup Hread)).
Defined.

(** C8, counterexample: descriptor 3 is the only member.  The first call
    closes it; an [open] then delivers 3 again, the lowest free
    descriptor; the second call on the same group closes that
    descriptor, which is not a member's.  Without the [open] in between
    the second call still makes a call, a [close] that fails. *)
Lemma close_all_again_is_not_a_no_op :
  let w0 := {| open_fds := {[0; 1; 2; 3]}; trace := [] |} in
  let w1 := (close_led_group_leds one_led w0).2 in
  let opened := sys_open env_ok "/sys/class/leds/led9/brightness" O_WRONLY w1 in
  let w3 := (close_led_group_leds one_led opened.2).2 in
  opened.1 = 3
  ∧ open_fds opened.2 = {[0; 1; 2; 3]}
  ∧ open_fds w3 = {[0; 1; 2]}
  ∧ events_since opened.2 w3 = [EClose 3 0]
  ∧ events_since w1 (close_led_group_leds one_led w1).2 = [EClose 3 (-1)].
Proof. vm_compute. done. Qed.

Lemma close_all_twice_witness :
  count empty_led_group = 0%nat
  ∧ close_led_group_leds empty_led_group w_start = (tt, w_start)
  ∧ events_since (close_led_group_leds two_leds w_running).2
      (close_led_group_leds two_leds
         (close_led_group_leds two_leds w_running).2).2
    = [EClose 4 (-1); EClose 5 (-1)].
Proof.
  assert (count empty_led_group = 0%nat) as Hcount by reflexivity.
  split_and!; [exact Hcount| |].
  - exact (proj1 (close_all_twice empty_led_group w_start) Hcount).
  - exact (proj2 (proj2 (close_all_twice two_leds w_running))).
Defined.

(** C9 at two names: the members are the descriptors of [led0] and
    [led1], in that order. *)
Lemma followers_in_command_line_order_witness :
  wf_group empty_led_group
  ∧ (opens (events_since w_start
       (add_leds 64 env_ok ["led0"; "led1"] empty_led_group w_start).2)).*1
    = ["/sys/class/leds/led0/brightness"; "/sys/class/leds/led1/brightness"]
  ∧ members (add_leds 64 env_ok ["led0"; "led1"] empty_led_group w_start).1.2
    = [3; 4].
Proof.
  assert (wf_group empty_led_group) as Hwf by reflexivity.
  assert ((add_leds 64 env_ok ["led0"; "led1"] empty_led_group w_start).1.1
          = true) as Hadded by (vm_compute; reflexivity).
  split; [exact Hwf|].
  destruct (followers_in_command_line_order 64 env_ok ["led0"; "led1"]
              empty_led_group w_start Hwf) as (_ & Horder & _).
  destruct (Horder Hadded) as [Hpaths Hmembers].
  split; [exact Hpaths|]. rewrite Hmembers. vm_compute. reflexivity.
Defined.

(** C10 at a full group. *)
Lemma failed_add_closes_descriptor_witness :
  (add_led_by_name_to_led_group 64 env_ok four_leds "led4" w_full).1.1 = false
  ∧ open_fds (add_led_by_name_to_led_group 64 env_ok four_leds "led4" w_full).2
    = open_fds w_full
  ∧ closed_exactly_once
      (events_since w_full
         (add_led_by_name_to_led_group 64 env_ok four_leds "led4" w_full).2).
Proof.
  assert ((add_led_by_name_to_led_group 64 env_ok four_leds "led4" w_full).1.1
          = false) as Hfailed by (vm_compute; reflexivity).
  split; [exact Hfailed|].
  destruct (proj1 (failed_add_closes_descriptor 64 env_ok four_leds "led4"
                     w_full) Hfailed) as (_ & Hfds & Hclosed).
  split; [exact Hfds|exact Hclosed].
Defined.

(** ** The further properties at concrete inputs *)

(** X1: a name of nine characters in a buffer of six bytes. *)
Lemma strlcpy_cuts_to_the_buffer_witness :
  (0 < 6)%nat
  ∧ String.length (strlcpy "backlight" 6)
    = (String.length "backlight" `min` (6 - 1))%nat
  ∧ (String.length (strlcpy "backlight" 6) < 6)%nat
  ∧ (∃ rest, "backlight" = strlcpy "backlight" 6 +:+ rest)
  ∧ ((String.length "backlight" < 6)%nat → strlcpy "backlight" 6 = "backlight").
Proof.
  assert (0 < 6)%nat as Hlen by lia.
  split; [exact Hlen|].
  exact (strlcpy_cuts_to_the_buffer "backlight" 6 Hlen).
Defined.

Example strlcpy_cut : strlcpy "backlight" 6 = "backl".
Proof. reflexivity. Qed.

(** X2 at 42 and -7. *)
Lemma brightness_text_determines_value_witness :
  (- 2 ^ 31 ≤ 42 < 2 ^ 31)
  ∧ (- 2 ^ 31 ≤ -7 < 2 ^ 31)
  ∧ (String.length (brightness_text 42) ≤ 12)%nat
  ∧ (∃ digits, brightness_text 42 = digits +:+ LF)
  ∧ (brightness_text 42 = brightness_text (-7) ↔ 42 = -7).
Proof.
  assert (- 2 ^ 31 ≤ 42 < 2 ^ 31) as H1 by lia.
  assert (- 2 ^ 31 ≤ -7 < 2 ^ 31) as H2 by lia.
  split; [exact H1|]. split; [exact H2|].
  exact (brightness_text_determines_value 42 (-7) H1 H2).
Defined.

(** X3 with the 64 characters of [<linux/uleds.h>]. *)
Lemma led_brightness_path_within_buffer_witness :
  (String.length "led0" ≤ 64 + 2)%nat
  ∧ (String.length "led1" ≤ 64 + 2)%nat
  ∧ led_brightness_path 64 "led0"
    = "/sys/class/leds/" +:+ "led0" +:+ "/brightness"
  ∧ (led_brightness_path 64 "led0" = led_brightness_path 64 "led1"
     ↔ "led0" = "led1").
Proof.
  assert (String.length "led0" ≤ 64 + 2)%nat as H0 by (vm_compute; lia).
  assert (String.length "led1" ≤ 64 + 2)%nat as H1 by (vm_compute; lia).
  split; [exact H0|]. split; [exact H1|].
  pose proof (led_brightness_path_within_buffer 64 "led0" "led1")
    as (_ & _ & _ & Hwhole & Hsame).
  split; [exact (proj2 Hwhole H0)|exact (Hsame H0 H1)].
Defined.

(** A name that does not fit: with room for 4 characters of a name the
    path of [backlight] loses its last three characters. *)
Example long_name_is_cut :
  led_brightness_path 4 "backlight" = "/sys/class/leds/backlight/brightn".
Proof. reflexivity. Qed.

(** X4 with a [write] that returns 0: the leader counts as registered. *)
Example write_of_nothing_registers_the_leader :
  create_led_group_leader 64 (scripted (λ _, true) (λ _ _, 0) []) "panel"
    w_start
  = (3,
     {| open_fds := {[3]} ∪ open_fds w_start;
        trace :=
          [EOpen "/dev/uleds" O_RDWR 3;
           EWrite 3 (UledsUserDev {| name := "panel";
                                     dev_max_brightness := 100 |}) 0] |}).
Proof. vm_compute. done. Qed.

(** X5: the registration of the leader is refused. *)
Lemma no_leader_no_followers_witness :
  (4 ≤ length argv_two_leds)%nat
  ∧ (leader_setup 64 env_no_registration argv_two_leds w_start).1 = -1
  ∧ (main 64 env_no_registration 5 argv_two_leds w_start).1
    = Some EXIT_FAILURE
  ∧ open_paths
      (events_since w_start
         (main 64 env_no_registration 5 argv_two_leds w_start).2)
    = ["/dev/uleds"]
  ∧ last
      (events_since w_start
         (main 64 env_no_registration 5 argv_two_leds w_start).2)
    = Some (EPerror "Failed to open /dev/uleds")
  ∧ open_fds (main 64 env_no_registration 5 argv_two_leds w_start).2
    = open_fds w_start.
Proof.
  assert (4 ≤ length argv_two_leds)%nat as Hargc by (vm_compute; lia).
  assert ((leader_setup 64 env_no_registration argv_two_leds w_start).1 = -1)
    as Hleader by (vm_compute; reflexivity).
  split; [exact Hargc|]. split; [exact Hleader|].
  exact (no_leader_no_followers 64 env_no_registration 5 argv_two_leds
           w_start Hargc Hleader).
Defined.

(** X6 with two names and an empty group. *)
Lemma group_never_exceeds_capacity_witness :
  (count empty_led_group ≤ MAX_LEDS_IN_GROUP)%nat
  ∧ (count (add_leds 64 env_ok ["led0"; "led1"] empty_led_group w_start).1.2
     ≤ MAX_LEDS_IN_GROUP)%nat
  ∧ ((add_leds 64 env_ok ["led0"; "led1"] empty_led_group w_start).1.1 = true →
     count (add_leds 64 env_ok ["led0"; "led1"] empty_led_group w_start).1.2
     = (count empty_led_group + length ["led0"; "led1"])%nat)
  ∧ ((MAX_LEDS_IN_GROUP < count empty_led_group + length ["led0"; "led1"])%nat →
     (add_leds 64 env_ok ["led0"; "led1"] empty_led_group w_start).1.1 = false).
Proof.
  assert (count empty_led_group ≤ MAX_LEDS_IN_GROUP)%nat as Hcount
    by (vm_compute; lia).
  split; [exact Hcount|].
  exact (group_never_exceeds_capacity 64 env_ok ["led0"; "led1"]
           empty_led_group w_start Hcount).
Defined.

(** X7 with five names. *)
Lemma too_many_leds_fail_witness :
  (MAX_LEDS_IN_GROUP + 2 < length argv_five_leds)%nat
  ∧ (main 64 env_ok 5 argv_five_leds w_start).1 = Some EXIT_FAILURE.
Proof.
  assert (MAX_LEDS_IN_GROUP + 2 < length argv_five_leds)%nat as Hmany
    by (vm_compute; lia).
  split; [exact Hmany|].
  exact (too_many_leds_fail 64 env_ok 5 argv_five_leds w_start Hmany).
Defined.

(** X8: [led1] cannot be opened, [led2] is not tried. *)
Lemma first_failure_stops_the_adding_witness :
  (add_leds 64 env_no_led1 ["led0"; "led1"; "led2"] empty_led_group
     w_start).1.1 = false
  ∧ ∃ before led_name after,
      ["led0"; "led1"; "led2"] = before ++ led_name :: after
      ∧ open_paths
          (events_since w_start
             (add_leds 64 env_no_led1 ["led0"; "led1"; "led2"]
                empty_led_group w_start).2)
        = led_brightness_path 64 <$> (before ++ [led_name])
      ∧ last
          (events_since w_start
             (add_leds 64 env_no_led1 ["led0"; "led1"; "led2"]
                empty_led_group w_start).2)
        = Some (EStderr ("failed to add LED " +:+ led_name +:+ " to group"
                         +:+ LF))
      ∧ count (add_leds 64 env_no_led1 ["led0"; "led1"; "led2"]
                 empty_led_group w_start).1.2
        = (count empty_led_group + length before)%nat.
Proof.
  assert ((add_leds 64 env_no_led1 ["led0"; "led1"; "led2"] empty_led_group
             w_start).1.1 = false) as Hfailed by (vm_compute; reflexivity).
  split; [exact Hfailed|].
  exact (first_failure_stops_the_adding 64 env_no_led1
           ["led0"; "led1"; "led2"] empty_led_group w_start Hfailed).
Defined.

Example first_failure_paths :
  open_paths
    (events_since w_start
       (add_leds 64 env_no_led1 ["led0"; "led1"; "led2"] empty_led_group
          w_start).2)
  = ["/sys/class/leds/led0/brightness"; "/sys/class/leds/led1/brightness"].
Proof. vm_compute. done. Qed.

(** X10: 42 and 75 are read, the third [read] fails. *)
Lemma values_reach_members_in_order_witness :
  (2 < 5)%nat
  ∧ read_fails env_ok 3 (after_iterations env_ok 2 3 two_leds w_running)
  ∧ (track_led_brightness env_ok 5 3 two_leds w_running).1 = true
  ∧ length (read_values env_ok 2 3 two_leds w_running) = 2%nat
  ∧ fd_ops
      (events_since w_running
         (track_led_brightness env_ok 5 3 two_leds w_running).2)
    = read_values env_ok 2 3 two_leds w_running
        ≫= fan_out_ops (members two_leds).
Proof.
  assert (2 < 5)%nat as Hk by lia.
  assert (read_fails env_ok 3 (after_iterations env_ok 2 3 two_leds w_running))
    as Hfail by (vm_compute; reflexivity).
  assert (∀ j, (j < 2)%nat →
            ¬ read_fails env_ok 3
                (after_iterations env_ok j 3 two_leds w_running)) as Hbefore.
  { intros [|[|j]] Hj;
      [vm_compute; discriminate|vm_compute; discriminate|lia]. }
  split; [exact Hk|]. split; [exact Hfail|].
  exact (values_reach_members_in_order env_ok 5 2 3 two_leds w_running
           Hk Hfail Hbefore).
Defined.

Example values_read_in_order :
  read_values env_ok 2 3 two_leds w_running = [42; 75].
Proof. vm_compute. done. Qed.

(** X12 at the run with two LEDs. *)
Lemma group_holds_distinct_open_descriptors_witness :
  (leader_setup 64 env_ok argv_two_leds w_start).1 ≠ -1
  ∧ NoDup ((leader_setup 64 env_ok argv_two_leds w_start).1
           :: members (follower_setup 64 env_ok argv_two_leds w_start).1.2)
  ∧ (count (follower_setup 64 env_ok argv_two_leds w_start).1.2
     ≤ MAX_LEDS_IN_GROUP)%nat
  ∧ ∀ m,
      m ∈ (leader_setup 64 env_ok argv_two_leds w_start).1
          :: members (follower_setup 64 env_ok argv_two_leds w_start).1.2 →
      m ∈ open_fds (follower_setup 64 env_ok argv_two_leds w_start).2
      ∧ m ∉ open_fds w_start.
Proof.
  assert ((leader_setup 64 env_ok argv_two_leds w_start).1 ≠ -1) as Hleader
    by (vm_compute; discriminate).
  split; [exact Hleader|].
  exact (group_holds_distinct_open_descriptors 64 env_ok argv_two_leds
           w_start Hleader).
Defined.

(** X14 and X15: [led1] cannot be opened. *)
Lemma failure_is_reported_witness :
  (main 64 env_no_led1 5 argv_two_leds w_start).1 = Some EXIT_FAILURE
  ∧ Exists is_diagnostic
      (events_since w_start (main 64 env_no_led1 5 argv_two_leds w_start).2).
Proof.
  assert ((main 64 env_no_led1 5 argv_two_leds w_start).1
          = Some EXIT_FAILURE) as Hcode by (vm_compute; reflexivity).
  split; [exact Hcode|].
  exact (failure_is_reported 64 env_no_led1 5 argv_two_leds w_start Hcode).
Defined.

Lemma failed_setup_touches_no_brightness_witness :
  (main 64 env_no_led1 5 argv_two_leds w_start).1 = Some EXIT_FAILURE
  ∧ Forall no_brightness_io
      (events_since w_start (main 64 env_no_led1 5 argv_two_leds w_start).2).
Proof.
  assert ((main 64 env_no_led1 5 argv_two_leds w_start).1
          = Some EXIT_FAILURE) as Hcode by (vm_compute; reflexivity).
  split; [exact Hcode|].
  exact (failed_setup_touches_no_brightness 64 env_no_led1 5 argv_two_leds
           w_start Hcode).
Defined.

(** X16 at the run with two LEDs. *)
Lemma teardown_closes_leader_then_members_witness :
  (4 ≤ length argv_two_leds)%nat
  ∧ (leader_setup 64 env_ok argv_two_leds w_start).1 ≠ -1
  ∧ is_Some (main 64 env_ok 5 argv_two_leds w_start).1
  ∧ ∃ before,
      events_since w_start (main 64 env_ok 5 argv_two_leds w_start).2
      = before
        ++ EClose (leader_setup 64 env_ok argv_two_leds w_start).1 0
        :: ((λ m, EClose m 0)
              <$> members (follower_setup 64 env_ok argv_two_leds w_start).1.2).
Proof.
  assert (4 ≤ length argv_two_leds)%nat as Hargc by (vm_compute; lia).
  assert ((leader_setup 64 env_ok argv_two_leds w_start).1 ≠ -1) as Hleader
    by (vm_compute; discriminate).
  assert (is_Some (main 64 env_ok 5 argv_two_leds w_start).1) as Hret
    by (vm_compute; eauto).
  split; [exact Hargc|]. split; [exact Hleader|]. split; [exact Hret|].
  exact (teardown_closes_leader_then_members 64 env_ok 5 argv_two_leds
           w_start Hargc Hleader Hret).
Defined.
